(** * Superdense coding notebook: shallow embedding and verification

    The notebook [Superdense Coding (with Qiskit).ipynb] defines six Python
    functions: [prepare_bell_state], [encode_bits], [decode_bits],
    [superdense_coder], [canonical_bitstring] and [simulate_circuit].  They
    are embedded here over

    - a small model of the Python values they use (strings as sequences of
      Unicode code points, exceptions, [int(c, 2)], list indexing), and
    - a model of the part of Qiskit they call: circuits as mutable objects
      holding an instruction list, and an exact, noiseless simulator for the
      gates H, X, Z, CX and for measurement.  *)

From Stdlib Require Import ZArith NArith QArith List Lia Permutation.
From stdpp Require Import base list gmap strings.
Import ListNotations.

(* ===================================================================== *)
(** * Python values *)
(* ===================================================================== *)

Module Py.

(** Exceptions that the modelled code can raise. *)
Inductive exn : Set :=
| AssertionError
| ValueError
| IndexError
| AttributeError
| CircuitError
| QiskitError.

(** Outcome of evaluating an expression: a value or a raised exception. *)
Inductive result (A : Type) : Type :=
| Ok (a : A)
| Raise (e : exn).
Arguments Ok {A} a.
Arguments Raise {A} e.

Definition rbind {A B} (k : A → result B) (r : result A) : result B :=
  match r with
  | Ok a => k a
  | Raise e => Raise e
  end.

#[global] Instance result_ret : MRet result := @Ok.
#[global] Instance result_bind : MBind result := @rbind.

(** A Python [str] is a sequence of Unicode code points. *)
Abbreviation char := N (only parsing).
Abbreviation str := (list N) (only parsing).

(** String literal: the code points of an ASCII literal. *)
Definition lit (s : string) : str :=
  map Ascii.N_of_ascii (String.list_ascii_of_string s).

(** [l[i]] for a non-negative index: [IndexError] out of range. *)
Definition index {A} (l : list A) (i : nat) : result A :=
  match l !! i with
  | Some a => Ok a
  | None => Raise IndexError
  end.

(** [s[i]] on a string yields the one-character string at [i]. *)
Definition str_index (s : str) (i : nat) : result str :=
  c ← index s i; Ok [c].

(** [''.join(parts)]. *)
Definition join (parts : list str) : str := concat parts.

(** [s[::-1]]. *)
Definition reversed (s : str) : str := rev s.

(** First code point of each run of ten decimal digits (general category
    Nd) of the Unicode character database, version 13.0, the one of
    CPython 3.9, the kernel the notebook was run with.  Other versions
    differ in the last few runs only; the ASCII and Arabic-Indic runs are
    in every version. *)
Definition decimal_zeros : list N :=
  [ 0x30; 0x660; 0x6f0; 0x7c0; 0x966; 0x9e6; 0xa66; 0xae6; 0xb66; 0xbe6;
    0xc66; 0xce6; 0xd66; 0xde6; 0xe50; 0xed0; 0xf20; 0x1040; 0x1090;
    0x17e0; 0x1810; 0x1946; 0x19d0; 0x1a80; 0x1a90; 0x1b50; 0x1bb0;
    0x1c40; 0x1c50; 0xa620; 0xa8d0; 0xa900; 0xa9d0; 0xa9f0; 0xaa50;
    0xabf0; 0xff10; 0x104a0; 0x10d30; 0x11066; 0x110f0; 0x11136; 0x111d0;
    0x112f0; 0x11450; 0x114d0; 0x11650; 0x116c0; 0x11730; 0x118e0;
    0x11950; 0x11c50; 0x11d50; 0x11da0; 0x16a60; 0x16b50;
    0x1d7ce; 0x1d7d8; 0x1d7e2; 0x1d7ec; 0x1d7f6; 0x1e140; 0x1e2f0;
    0x1e950; 0x1fbf0 ]%N.

(** [unicodedata.decimal(c)], [None] when [c] is not a decimal digit. *)
Definition decimal (c : char) : option N :=
  match find (λ z, (z <=? c)%N && (c <? z + 10)%N) decimal_zeros with
  | Some z => Some (c - z)%N
  | None => None
  end.

(** [int(c, 2)] for a one-character string [c].  CPython first maps every
    Unicode decimal digit to its ASCII digit and then parses in base 2; a
    lone sign, underscore, blank or any other character is an invalid
    literal. *)
Definition int_base2 (c : char) : result Z :=
  match decimal c with
  | Some 0%N => Ok 0%Z
  | Some 1%N => Ok 1%Z
  | _ => Raise ValueError
  end.

(** Truth value of an integer, as tested by [if b:]. *)
Definition truthy (z : Z) : bool := negb (z =? 0)%Z.

(** [numpy.array(l).reshape(n, 2)]: the rows of an [n] x 2 array;
    [ValueError] when [l] does not have [2 * n] elements. *)
Fixpoint rows2 {A} (l : list A) : list (list A) :=
  match l with
  | a :: b :: l' => [a; b] :: rows2 l'
  | _ => []
  end.

Definition reshape2 {A} (n : nat) (l : list A) : result (list (list A)) :=
  if (length l =? n * 2)%nat then Ok (rows2 l) else Raise ValueError.

(** [enumerate(l)]. *)
Definition enumerate {A} (l : list A) : list (nat * A) :=
  zip (seq 0 (length l)) l.

(** [[f(x) for x in l]] where [f] may raise. *)
Fixpoint comprehension {A B} (f : A → result B) (l : list A) : result (list B) :=
  match l with
  | [] => Ok []
  | a :: l' => b ← f a; bs ← comprehension f l'; Ok (b :: bs)
  end.

(** [for x in l: acc = body(acc, x)] where the body may raise. *)
Fixpoint for_acc {A S} (body : S → A → result S) (l : list A) (acc : S) : result S :=
  match l with
  | [] => Ok acc
  | a :: l' => acc' ← body acc a; for_acc body l' acc'
  end.

End Py.
Import Py.

(* ===================================================================== *)
(** * The notebook: [canonical_bitstring] *)
(* ===================================================================== *)

(** <<
    def canonical_bitstring(bs):
        N = len(bs)//2
        bs2 = []
        for i in range(N):
            bs2.append(bs[i+N])
            bs2.append(bs[i])
        return ''.join(bs2)
    >> *)
Definition canonical_bitstring (bs : str) : result str :=
  let N := (length bs / 2)%nat in
  bs2 ← for_acc (λ bs2 i,
                  hi ← str_index bs (i + N);
                  lo ← str_index bs i;
                  Ok ((bs2 ++ [hi]) ++ [lo]))
               (seq 0 N) [];
  Ok (join bs2).

(** The index mapping of [canonical_bitstring] on strings of [2 * N]
    characters: output position [j] is read from this input position. *)
Definition canonical_index (N j : nat) : nat :=
  if Nat.even j then (j / 2 + N)%nat else (j / 2)%nat.

(** The inverse index mapping: input position [p] lands at this output
    position. *)
Definition inverse_index (N p : nat) : nat :=
  if (p <? N)%nat then (2 * p + 1)%nat else (2 * (p - N))%nat.

(** Reindexing a string along a mapping of positions. *)
Definition reindex (f : nat → nat) (s : str) : str :=
  (λ j, s !!! f j) <$> seq 0 (length s).


(* ===================================================================== *)
(** * The part of Qiskit that the notebook calls *)
(* ===================================================================== *)

Module Qiskit.

(** [QuantumRegister(size, name)] and [ClassicalRegister(size, name)].
    Registers of any size are accepted, the empty one included. *)
Record Register : Set := { reg_size : nat; reg_name : string }.

Definition QuantumRegister (size : nat) (name : string) : Register :=
  {| reg_size := size; reg_name := name |}.
Definition ClassicalRegister (size : nat) (name : string) : Register :=
  {| reg_size := size; reg_name := name |}.

(** The instructions the notebook appends.  Qubits and classical bits are
    named by their index in the circuit. *)
Inductive Instruction : Set :=
| HGate (q : nat)
| XGate (q : nat)
| ZGate (q : nat)
| CXGate (control target : nat)
| Barrier (qubits : list nat)
| Measure (qubit clbit : nat).

(** The qubits an instruction acts on. *)
Definition qargs (i : Instruction) : list nat :=
  match i with
  | HGate q | XGate q | ZGate q => [q]
  | CXGate c t => [c; t]
  | Barrier qs => qs
  | Measure q _ => [q]
  end.

(** A circuit object: its registers and [circuit.data]. *)
Record QuantumCircuit : Set :=
  { qregs : list Register; cregs : list Register; data : list Instruction }.

Definition num_qubits (qc : QuantumCircuit) : nat :=
  sum_list (reg_size <$> qregs qc).
Definition num_clbits (qc : QuantumCircuit) : nat :=
  sum_list (reg_size <$> cregs qc).

(** ** Circuit objects are mutable

    Gate methods such as [circuit.h(q)] change the circuit object in
    place.  The store holds the circuit objects built so far; a reference
    is a position in it.  A computation takes the store and gives back a
    value or an exception together with the store it leaves behind. *)
Abbreviation ref := nat (only parsing).
Abbreviation store := (list QuantumCircuit) (only parsing).
Definition M (A : Type) : Type := store → result A * store.

Definition M_ret {A} (a : A) : M A := λ σ, (Ok a, σ).
Definition M_bind {A B} (k : A → M B) (m : M A) : M B :=
  λ σ, match m σ with
       | (Ok a, σ') => k a σ'
       | (Raise e, σ') => (Raise e, σ')
       end.
#[global] Instance M_mret : MRet M := @M_ret.
#[global] Instance M_mbind : MBind M := @M_bind.

Definition raise {A} (e : exn) : M A := λ σ, (Raise e, σ).

(** A pure computation that may raise, run inside [M]. *)
Definition lift {A} (r : result A) : M A := λ σ, (r, σ).

(** [for x in l: body(x)]. *)
Fixpoint for_each {A} (l : list A) (body : A → M unit) : M unit :=
  match l with
  | [] => mret ()
  | a :: l' => body a;; for_each l' body
  end.

(** [QuantumCircuit(qreg_a, qreg_b)]: a new, empty circuit object. *)
Definition new_QuantumCircuit (regs : list Register) : M ref :=
  λ σ, (Ok (length σ), σ ++ [ {| qregs := regs; cregs := []; data := [] |} ]).

(** The object behind a reference. *)
Definition deref (c : ref) : M QuantumCircuit :=
  λ σ, match σ !! c with
       | Some qc => (Ok qc, σ)
       | None => (Raise AttributeError, σ)
       end.

Definition update (c : ref) (f : QuantumCircuit → QuantumCircuit) : M unit :=
  λ σ, match σ !! c with
       | Some qc => (Ok (), <[c := f qc]> σ)
       | None => (Raise AttributeError, σ)
       end.

Definition append_data (instrs : list Instruction) (qc : QuantumCircuit) : QuantumCircuit :=
  {| qregs := qregs qc; cregs := cregs qc; data := data qc ++ instrs |}.

(** [circuit.append(instruction, qargs)]: every qubit index must name a
    qubit of the circuit and no qubit may be given twice, otherwise
    [CircuitError]. *)
Definition valid_qargs (n : nat) (qs : list nat) : bool :=
  forallb (λ q, q <? n)%nat qs && bool_decide (NoDup qs).

Definition append (c : ref) (i : Instruction) : M unit :=
  qc ← deref c;
  if valid_qargs (num_qubits qc) (qargs i)
  then update c (append_data [i])
  else raise CircuitError.

(** [circuit.h(q)], [circuit.x(q)], [circuit.z(q)], [circuit.cx(c, t)]. *)
Definition h (c : ref) (q : nat) : M unit := append c (HGate q).
Definition x (c : ref) (q : nat) : M unit := append c (XGate q).
Definition z (c : ref) (q : nat) : M unit := append c (ZGate q).
Definition cx (c : ref) (control target : nat) : M unit :=
  append c (CXGate control target).

(** [circuit.barrier()]: a barrier across all qubits. *)
Definition barrier (c : ref) : M unit :=
  qc ← deref c;
  update c (append_data [Barrier (seq 0 (num_qubits qc))]).

(** [circuit.measure_all()]: adds a classical register [meas] with one bit
    per qubit, a barrier, and the measurement of every qubit into the new
    bit of the same rank. *)
Definition measure_all (c : ref) : M unit :=
  qc ← deref c;
  let n := num_qubits qc in
  let k := num_clbits qc in
  update c (λ qc,
    {| qregs := qregs qc;
       cregs := cregs qc ++ [ClassicalRegister n "meas"];
       data := data qc ++ Barrier (seq 0 n)
                       :: ((λ q, Measure q (k + q)) <$> seq 0 n) |}).

(** ** Noiseless simulation

    The state of [n] qubits gives an amplitude to every basis index
    [i < 2 ^ n]; bit [q] of [i] is the value of qubit [q].  All gates of
    the notebook have real matrices with entries in {0, 1, -1} but for the
    factor 1/sqrt 2 of H.  Amplitudes are therefore kept as integers, the
    state of the machine being the integer vector times a positive scalar
    that the simulation does not need: every probability is a ratio of two
    sums of squares. *)
Definition Statevector : Type := N → Z.

Definition zero_state : Statevector := λ i, if (i =? 0)%N then 1%Z else 0%Z.

Definition bit (i : N) (q : nat) : bool := N.testbit i (N.of_nat q).
Definition flip (i : N) (q : nat) : N := N.lxor i (N.shiftl 1 (N.of_nat q)).

Definition apply_x (q : nat) (ψ : Statevector) : Statevector :=
  λ i, ψ (flip i q).
Definition apply_z (q : nat) (ψ : Statevector) : Statevector :=
  λ i, if bit i q then (- ψ i)%Z else ψ i.
Definition apply_h (q : nat) (ψ : Statevector) : Statevector :=
  λ i, if bit i q then (ψ (flip i q) - ψ i)%Z else (ψ i + ψ (flip i q))%Z.
Definition apply_cx (c t : nat) (ψ : Statevector) : Statevector :=
  λ i, if bit i c then ψ (flip i t) else ψ i.

(** The basis indices of [n] qubits and sums of squared amplitudes. *)
Definition basis (n : nat) : list N := N.of_nat <$> seq 0 (2 ^ n).

Definition Zsum (f : N → Z) (l : list N) : Z :=
  foldr (λ i acc, (f i + acc)%Z) 0%Z l.

(** Sum of the squared amplitudes of the basis indices that satisfy
    [P]. *)
Definition weight (n : nat) (P : N → bool) (ψ : Statevector) : Z :=
  Zsum (λ i, if P i then (ψ i * ψ i)%Z else 0%Z) (basis n).

Definition norm2 (n : nat) (ψ : Statevector) : Z := weight n (λ _, true) ψ.

(** Born rule: the probability that measuring all qubits gives [i]. *)
Definition probability (n : nat) (ψ : Statevector) (i : N) : Q :=
  (inject_Z (ψ i * ψ i) / inject_Z (norm2 n ψ))%Q.

(** The state left by the measurement of qubit [q] with outcome [b]. *)
Definition collapse (q : nat) (b : bool) (ψ : Statevector) : Statevector :=
  λ i, if bool_decide (bit i q = b) then ψ i else 0%Z.

(** One shot: the state and the classical bits. *)
Record Shot : Type := { sv : Statevector; memory : list bool }.

(** Executing one instruction of a shot on [n] qubits.  A measurement
    consumes one random number [u]: the outcome is 1 with probability
    (weight of the indices with the qubit set) / (weight of all). *)
Definition execute (n : nat) (u : N) (i : Instruction) (s : Shot) : Shot :=
  match i with
  | HGate q => {| sv := apply_h q (sv s); memory := memory s |}
  | XGate q => {| sv := apply_x q (sv s); memory := memory s |}
  | ZGate q => {| sv := apply_z q (sv s); memory := memory s |}
  | CXGate c t => {| sv := apply_cx c t (sv s); memory := memory s |}
  | Barrier _ => s
  | Measure q c =>
      let w1 := weight n (λ i, bit i q) (sv s) in
      let w := norm2 n (sv s) in
      let b := (Z.of_N u mod w <? w1)%Z in
      {| sv := collapse q b (sv s); memory := <[c := b]> (memory s) |}
  end.

(** The instructions in order; the one at position [pos] draws
    [draw pos]. *)
Fixpoint execute_all (n : nat) (draw : nat → N) (pos : nat)
    (instrs : list Instruction) (s : Shot) : Shot :=
  match instrs with
  | [] => s
  | i :: instrs' => execute_all n draw (S pos) instrs' (execute n (draw pos) i s)
  end.

Definition run_shot (qc : QuantumCircuit) (draw : nat → N) : Shot :=
  execute_all (num_qubits qc) draw 0 (data qc)
    {| sv := zero_state; memory := replicate (num_clbits qc) false |}.

(** [transpile(circuit, sim)]: the simulator runs every gate of the
    notebook natively. *)
Definition transpile (qc : QuantumCircuit) : QuantumCircuit := qc.

(** The simulator's own number of shots, used when [run] is not given
    the option [shots]. *)
Definition DEFAULT_SHOTS : nat := 1024.

(** [sim.run(circuits, validate=False, parameter_binds=None, **run_options)]
    followed by [.result()]: the classical bits of every shot.  The second
    positional parameter is [validate]; the number of shots is the run
    option [shots].  [rnd s] is the random stream of shot [s]. *)
Definition run (rnd : nat → nat → N) (qc : QuantumCircuit)
    (validate : Z) (shots : option nat) : list (list bool) :=
  (λ s, memory (run_shot qc (rnd s))) <$> seq 0 (default DEFAULT_SHOTS shots).

(** The key of a shot in the counts: the classical bits, the last bit
    first, the registers separated by a blank. *)
Definition bit_char (b : bool) : char := if b then 49%N else 48%N.

Fixpoint split_registers (sizes : list nat) (mem : list bool) : list (list bool) :=
  match sizes with
  | [] => []
  | k :: sizes' => take k mem :: split_registers sizes' (drop k mem)
  end.

Fixpoint intercalate (sep : str) (parts : list str) : str :=
  match parts with
  | [] => []
  | [p] => p
  | p :: parts' => p ++ sep ++ intercalate sep parts'
  end.

Definition format_memory (qc : QuantumCircuit) (mem : list bool) : str :=
  intercalate [32%N]
    (rev ((λ bits, rev (bit_char <$> bits))
            <$> split_registers (reg_size <$> cregs qc) mem)).

Definition count (counts : gmap (list N) nat) (key : str) : gmap (list N) nat :=
  <[key := S (default 0%nat (counts !! key))]> counts.

(** [result.get_counts(circuit)]; [QiskitError] when the circuit has no
    classical bits. *)
Definition get_counts (qc : QuantumCircuit) (memories : list (list bool))
    : result (gmap (list N) nat) :=
  if (num_clbits qc =? 0)%nat then Raise QiskitError
  else Ok (foldl count ∅ (format_memory qc <$> memories)).

End Qiskit.
Import Qiskit.

(* ===================================================================== *)
(** * The notebook: building and simulating the circuit *)
(* ===================================================================== *)

(** <<
    def prepare_bell_state(circuit, a, b):
        circuit.h(a)
        circuit.cx(a, b)
    >> *)
Definition prepare_bell_state (circuit : ref) (a b : nat) : M unit :=
  h circuit a;;
  cx circuit a b.

(** <<
    def encode_bits(circuit, q, b0, b1):
        if b0:
            circuit.x(q)
        if b1:
            circuit.z(q)
    >> *)
Definition encode_bits (circuit : ref) (q : nat) (b0 b1 : bool) : M unit :=
  (if b0 then x circuit q else mret ());;
  (if b1 then z circuit q else mret ()).

(** <<
    def decode_bits(circuit, q_a, q_b):
        circuit.cx(q_a, q_b)
        circuit.h(q_a)
    >> *)
Definition decode_bits (circuit : ref) (q_a q_b : nat) : M unit :=
  cx circuit q_a q_b;;
  h circuit q_a.

(** <<
    def superdense_coder(bitstring):
        assert(len(bitstring) % 2 == 0)
        bitstring = [int(i,2) for i in bitstring ]
        N = len(bitstring)//2
        bit_arr = np.array(bitstring).reshape(N,2)

        qreg_a = QuantumRegister(N,'qa')
        qreg_b = QuantumRegister(N,'qb')
        circuit = QuantumCircuit(qreg_a, qreg_b)

        for q_a, q_b in zip(range(0,N),range(N,2*N)):
            prepare_bell_state(circuit, q_a, q_b)
        circuit.barrier()

        for q_a, bit_pair in enumerate(bit_arr):
            encode_bits(circuit, q_a, bit_pair[0], bit_pair[1])
        circuit.barrier()

        for q_a, q_b in zip(range(0,N),range(N,2*N)):
            decode_bits(circuit, q_a, q_b)
        circuit.measure_all()

        return circuit
    >> *)
Definition superdense_coder (bitstring : str) : M ref :=
  (if (length bitstring mod 2 =? 0)%nat then mret () else raise AssertionError);;
  bitstring ← lift (comprehension int_base2 bitstring);
  let N := (length bitstring / 2)%nat in
  bit_arr ← lift (reshape2 N bitstring);

  let qreg_a := QuantumRegister N "qa" in
  let qreg_b := QuantumRegister N "qb" in
  circuit ← new_QuantumCircuit [qreg_a; qreg_b];

  for_each (zip (seq 0 N) (seq N N)) (λ '(q_a, q_b),
    prepare_bell_state circuit q_a q_b);;
  barrier circuit;;

  for_each (enumerate bit_arr) (λ '(q_a, bit_pair),
    b0 ← lift (index bit_pair 0);
    b1 ← lift (index bit_pair 1);
    encode_bits circuit q_a (truthy b0) (truthy b1));;
  barrier circuit;;

  for_each (zip (seq 0 N) (seq N N)) (λ '(q_a, q_b),
    decode_bits circuit q_a q_b);;
  measure_all circuit;;

  mret circuit.

(** <<
    def simulate_circuit(circuit, n_samples=1000):
        sim = Aer.get_backend('qasm_simulator')
        tqc = transpile(circuit, sim)
        counts = sim.run(tqc,n_samples).result().get_counts(circuit)
        return {
            canonical_bitstring(bs[::-1]) : count
            for bs, count in counts.items()
        }
    >>
    [n_samples] is passed to [run] as its second positional argument; the
    output recorded in the notebook for the default [n_samples] is
    ["001101": observed 1024 times].  The simulator's random numbers are
    the extra argument [rnd].  The items of [counts] are visited in the
    order of the finite map, which matters only when two keys of [counts]
    have the same canonical bitstring: the one visited last stays. *)
Definition simulate_circuit (rnd : nat → nat → N)
    (circuit : QuantumCircuit) (n_samples : nat) : result (gmap (list N) nat) :=
  let tqc := transpile circuit in
  counts ← get_counts circuit (run rnd tqc (Z.of_nat n_samples) None);
  for_acc (λ d '(bs, count),
             key ← canonical_bitstring (reversed bs);
             Ok (<[key := count]> d))
          (map_to_list counts) ∅.

(** The default value of [n_samples]. *)
Definition n_samples_default : nat := 1000.

(** One bit pair on two fresh carriers, qubit 0 being carrier A and qubit 1
    carrier B: the notebook's functions called in the order of
    [superdense_coder], for a single pair and without the barriers. *)
Definition bit_pair_circuit (b0 b1 : bool) : M ref :=
  circuit ← new_QuantumCircuit [QuantumRegister 1 "qa"; QuantumRegister 1 "qb"];
  prepare_bell_state circuit 0 1;;
  encode_bits circuit 0 b0 b1;;
  decode_bits circuit 0 1;;
  measure_all circuit;;
  mret circuit.

(* ===================================================================== *)
(** * Notions used to state the properties *)
(* ===================================================================== *)

(** A computation that, on a circuit of [n] qubits behind the reference
    [c], appends [instrs] to that circuit, returns normally and leaves the
    rest of the store alone. *)
Definition appends (n : nat) (m : M unit) (c : nat) (instrs : list Instruction) : Prop :=
  ∀ σ qc, σ !! c = Some qc → num_qubits qc = n →
          m σ = (Ok (), <[c := append_data instrs qc]> σ).

(** The gates that encode the bit pair [(b0, b1)] on qubit [q]. *)
Definition encoding_gates (q : nat) (b0 b1 : bool) : list Instruction :=
  (if b0 then [XGate q] else []) ++ (if b1 then [ZGate q] else []).

(** Carrier pairs of [superdense_coder]: qubit [i] of [qa] with qubit [i]
    of [qb], which is qubit [N + i] of the circuit. *)
Definition carrier_pairs (N : nat) : list (nat * nat) := zip (seq 0 N) (seq N N).

Definition encode_row (p : nat * list Z) : list Instruction :=
  match p.2 with
  | [b0; b1] => encoding_gates p.1 (truthy b0) (truthy b1)
  | _ => []
  end.

(** The three stages of the circuit of [superdense_coder]: Bell pairs,
    Alice's encoding between the two barriers, decoding and measurement. *)
Definition bell_stage (N : nat) : list Instruction :=
  flat_map (λ p, [HGate p.1; CXGate p.1 p.2]) (carrier_pairs N).

Definition encode_stage (bits : list Z) : list Instruction :=
  let N := (length bits / 2)%nat in
  [Barrier (seq 0 (2 * N))]
  ++ flat_map encode_row (enumerate (rows2 bits))
  ++ [Barrier (seq 0 (2 * N))].

Definition decode_gates (N : nat) : list Instruction :=
  flat_map (λ p, [CXGate p.1 p.2; HGate p.1]) (carrier_pairs N).

Definition decode_stage (N : nat) : list Instruction :=
  decode_gates N
  ++ Barrier (seq 0 (2 * N)) :: ((λ q, Measure q q) <$> seq 0 (2 * N)).

(** The circuit that [superdense_coder] builds from the integer bits. *)
Definition coder_data (bits : list Z) : list Instruction :=
  let N := (length bits / 2)%nat in
  bell_stage N ++ encode_stage bits ++ decode_stage N.

Definition coder_circuit (bits : list Z) : QuantumCircuit :=
  let N := (length bits / 2)%nat in
  {| qregs := [QuantumRegister N "qa"; QuantumRegister N "qb"];
     cregs := [ClassicalRegister (2 * N) "meas"];
     data := coder_data bits |}.

(** The circuit of the scenario [bit_pair_circuit]. *)
Definition pair_circuit (b0 b1 : bool) : QuantumCircuit :=
  {| qregs := [QuantumRegister 1 "qa"; QuantumRegister 1 "qb"];
     cregs := [ClassicalRegister 2 "meas"];
     data := ([HGate 0; CXGate 0 1] ++ encoding_gates 0 b0 b1 ++ [CXGate 0 1; HGate 0])
             ++ [Barrier [0; 1]; Measure 0 0; Measure 1 1]%nat |}.

(** A circuit of two qubits that holds a Bell pair, as an example. *)
Definition bell_pair_example : QuantumCircuit :=
  {| qregs := [QuantumRegister 1 "qa"; QuantumRegister 1 "qb"];
     cregs := [];
     data := [HGate 0; CXGate 0 1] |}.

(** The characters ['0'] and ['1']. *)
Definition is_bit (c : char) : Prop := c = 48%N ∨ c = 49%N.

(** The characters that [int(c, 2)] accepts. *)
Definition binary_digit (c : char) : Prop :=
  decimal c = Some 0%N ∨ decimal c = Some 1%N.

#[global] Instance is_bit_dec c : Decision (is_bit c).
Proof. unfold is_bit. apply _. Defined.

#[global] Instance binary_digit_dec c : Decision (binary_digit c).
Proof. unfold binary_digit. apply _. Defined.

(** The state is a multiple of the basis state [i0]: measuring all qubits
    gives [i0] and nothing else. *)
Definition concentrated (n : nat) (ψ : Statevector) (i0 : N) : Prop :=
  i0 ∈ basis n ∧ ψ i0 ≠ 0%Z ∧ ∀ i, i ∈ basis n → i ≠ i0 → ψ i = 0%Z.

Definition concentratedb (n : nat) (ψ : Statevector) (i0 : N) : bool :=
  bool_decide (i0 ∈ basis n) &&
  forallb (λ i, if (i =? i0)%N then negb (ψ i =? 0)%Z else (ψ i =? 0)%Z) (basis n).

(** Instructions that leave the classical bits alone, and instructions
    that leave the gates alone. *)
Definition is_unitary (i : Instruction) : bool :=
  match i with Measure _ _ => false | _ => true end.

Definition is_readout (i : Instruction) : bool :=
  match i with Measure _ _ | Barrier _ => true | _ => false end.

(** The classical bits after measuring the basis state [i0] along
    [instrs]. *)
Definition readout (i0 : N) (instrs : list Instruction) (mem : list bool) : list bool :=
  foldl (λ mem i, match i with
                  | Measure q c => <[c := bit i0 q]> mem
                  | _ => mem
                  end) mem instrs.

(** Total of the occurrence counts of a mapping. *)
Definition total (counts : gmap (list N) nat) : nat :=
  map_fold (λ _ v acc, (v + acc)%nat) 0%nat counts.

(** The state of qubit [b] alone: entry [(s, t)] of its reduced density
    matrix, in the same unit as the squared amplitudes. *)
Definition with_bit (i : N) (b : nat) (v : bool) : N :=
  if bool_decide (bit i b = v) then i else flip i b.

Definition reduced (n b : nat) (ψ : Statevector) (s t : bool) : Z :=
  Zsum (λ i, if bit i b then 0%Z else (ψ (with_bit i b s) * ψ (with_bit i b t))%Z)
       (basis n).

(** The state of a circuit's qubits after all its gates, before any
    measurement. *)
Definition final_state (qc : QuantumCircuit) : Statevector :=
  sv (execute_all (num_qubits qc) (λ _, 0%N) 0
        (List.filter is_unitary (data qc))
        {| sv := zero_state; memory := [] |}).

(** Basis index in which qubit [q] of a circuit carries [bits !!! q]. *)
Definition index_of_bits (bits : list bool) : N :=
  foldr (λ (b : bool) i, (2 * i + N.b2n b)%N) 0%N bits.

(** An X or Z gate on a qubit of an [n]-qubit circuit other than [b], or a
    barrier. *)
Definition acts_off (n b : nat) (i : Instruction) : bool :=
  match i with
  | XGate q | ZGate q => (q <? n)%nat && negb (q =? b)%nat
  | Barrier _ => true
  | _ => false
  end.

(** ** States of independent carrier pairs

    In the circuit of [superdense_coder] every gate acts inside one carrier
    pair: qubit [j] of [qa] and qubit [j] of [qb], for some [j < N].  The
    state is then, at every moment, a product of one factor per pair. *)

(** Amplitudes of one pair: [G a b] for carrier A at [a] and carrier B at
    [b]; and the gates on a pair. *)
Definition h2 (G : bool → bool → Z) : bool → bool → Z :=
  λ a b, if a then (G false b - G true b)%Z else (G false b + G true b)%Z.
Definition x2 (G : bool → bool → Z) : bool → bool → Z :=
  λ a b, G (negb a) b.
Definition z2 (G : bool → bool → Z) : bool → bool → Z :=
  λ a b, if a then (- G a b)%Z else G a b.
Definition cx2 (G : bool → bool → Z) : bool → bool → Z :=
  λ a b, if a then G a (negb b) else G a b.

Definition Zprod (t : nat → Z) (l : list nat) : Z :=
  foldr (λ k acc, (t k * acc)%Z) 1%Z l.

(** The state of [N] pairs with factors [F 0 .. F (N - 1)]. *)
Definition prod_state (N : nat) (F : nat → bool → bool → Z) : Statevector :=
  λ i, if (i <? 2 ^ N.of_nat (2 * N))%N
       then Zprod (λ j, F j (bit i j) (bit i (N + j))) (seq 0 N)
       else 0%Z.

(** All factors of [F] but the one of pair [j]. *)
Definition rest (N : nat) (F : nat → bool → bool → Z) (j : nat) (i : BinNums.N) : Z :=
  Zprod (λ k, if (k =? j)%nat then 1%Z else F k (bit i k) (bit i (N + k))) (seq 0 N).

Definition upd (j : nat) (G : bool → bool → Z) (F : nat → bool → bool → Z)
    : nat → bool → bool → Z :=
  λ k, if (k =? j)%nat then G else F k.

(** Instructions that act inside one pair (or are barriers), and what they
    do to the factors. *)
Definition pair_local (N : nat) (i : Instruction) : bool :=
  match i with
  | HGate q | XGate q | ZGate q => (q <? N)%nat
  | CXGate c t => (c <? N)%nat && (t =? N + c)%nat
  | Barrier _ => true
  | Measure _ _ => false
  end.

Definition pair_step (i : Instruction) (F : nat → bool → bool → Z)
    : nat → bool → bool → Z :=
  match i with
  | HGate q => upd q (h2 (F q)) F
  | XGate q => upd q (x2 (F q)) F
  | ZGate q => upd q (z2 (F q)) F
  | CXGate c _ => upd c (cx2 (F c)) F
  | _ => F
  end.

(** What an instruction does to the factor of pair [j]. *)
Definition at_pair (j : nat) (i : Instruction) (G : bool → bool → Z) : bool → bool → Z :=
  match i with
  | HGate q => if (q =? j)%nat then h2 G else G
  | XGate q => if (q =? j)%nat then x2 G else G
  | ZGate q => if (q =? j)%nat then z2 G else G
  | CXGate c _ => if (c =? j)%nat then cx2 G else G
  | _ => G
  end.

(** The factor of a pair in the all-zero state. *)
Definition zero_pair : bool → bool → Z := λ a b, if a || b then 0%Z else 1%Z.

(** The bits of a row of the bit array, and the classical bits expected
    from the circuit of [superdense_coder]: the bits [b1] of all pairs (read
    on [qa]) followed by the bits [b0] of all pairs (read on [qb]). *)
Definition row_b0 (row : list Z) : bool :=
  match row with r0 :: _ => truthy r0 | _ => false end.
Definition row_b1 (row : list Z) : bool :=
  match row with _ :: r1 :: _ => truthy r1 | _ => false end.

Definition expected_memory (bits : list Z) : list bool :=
  (row_b1 <$> rows2 bits) ++ (row_b0 <$> rows2 bits).

(** What the encoding of a row does to the factor of its pair. *)
Definition enc2 (row : list Z) (G : bool → bool → Z) : bool → bool → Z :=
  match row with
  | [r0; r1] =>
      let G1 := if truthy r0 then x2 G else G in
      if truthy r1 then z2 G1 else G1
  | _ => G
  end.

(** The factor of a pair at the end of the circuit: carrier A holds [b1],
    carrier B holds [b0]. *)
Definition final_pair (row : list Z) : bool → bool → Z :=
  λ a b, if eqb a (row_b1 row) && eqb b (row_b0 row) then 2%Z else 0%Z.

(** The gates of the circuit of [superdense_coder]. *)
Definition coder_gates (bits : list Z) : list Instruction :=
  bell_stage (length bits / 2) ++ encode_stage bits ++ decode_gates (length bits / 2).

(** The key under which [simulate_circuit] reports the circuit built from
    the integer bits: the bits again, as the characters ['0'] and ['1']. *)
Definition bits_key (bits : list Z) : list N :=
  (λ z, bit_char (truthy z)) <$> bits.

(* ===================================================================== *)
(** * Notions used for further properties *)
(* ===================================================================== *)

(** The store [σ'] differs from [σ] at most in the circuit behind [c], and
    that circuit has kept its registers and its instructions and may have
    gained instructions at the end. *)
Definition appended_to (c : nat) (σ σ' : list QuantumCircuit) : Prop :=
  length σ' = length σ ∧
  (∀ c', c' ≠ c → σ' !! c' = σ !! c') ∧
  (∀ qc, σ !! c = Some qc → ∃ instrs, σ' !! c = Some (append_data instrs qc)).

(** A computation that only ever appends to the circuit behind [c]. *)
Definition append_only {A} (c : nat) (m : M A) : Prop :=
  ∀ σ, appended_to c σ (m σ).2.

(** The basis index in which exactly the qubits [a] and [b] are set. *)
Definition both_set (a b : nat) : N := flip (flip 0 a) b.

(** The ASCII digit of a decimal digit. *)
Definition ascii_digit (c : char) : char :=
  match decimal c with
  | Some d => (48 + d)%N
  | None => c
  end.

(** The number of characters of a key of the counts of a circuit: its
    classical bits and one blank between consecutive registers. *)
Definition key_length (qc : QuantumCircuit) : nat :=
  (num_clbits qc + (length (cregs qc) - 1))%nat.

(** Sum of the counts of a list of items. *)
Definition sum_counts (items : list (list N * nat)) : nat :=
  sum_list (snd <$> items).

(** The number of characters that are a digit of value 1, and the number
    of integer bits that are true. *)
Definition ones (bs : str) : nat :=
  length (filter (λ c, decimal c = Some 1%N) bs).

Definition true_bits (bits : list Z) : nat :=
  sum_list ((λ z, if truthy z then 1%nat else 0%nat) <$> bits).

(** What [canonical_bitstring] returns on a string of any length. *)
Definition canonical_out (s : str) : str :=
  reindex (canonical_index (length s / 2)) (take (2 * (length s / 2)) s).

(** One step of the dictionary comprehension of [simulate_circuit]. *)
Definition relabel (d : gmap (list N) nat) (item : list N * nat) : gmap (list N) nat :=
  <[canonical_out (reversed item.1) := item.2]> d.

(** The number of occurrences of [a] in a list. *)
Definition occurrences {A} `{EqDecision A} (a : A) (l : list A) : nat :=
  length (filter (λ b, b = a) l).

#[global] Instance exn_eq_dec : EqDecision exn.
Proof. solve_decision. Defined.

#[global] Instance result_eq_dec {A} `{EqDecision A} : EqDecision (result A).
Proof. solve_decision. Defined.

(** The key of shot [s] in the counts of the simulator, and what
    [simulate_circuit] makes of it. *)
Definition simulator_key (rnd : nat → nat → N) (qc : QuantumCircuit) (s : nat) : str :=
  format_memory qc (memory (run_shot qc (rnd s))).

Definition shot_key (rnd : nat → nat → N) (qc : QuantumCircuit) (s : nat) : result str :=
  canonical_bitstring (reversed (simulator_key rnd qc s)).

(** A circuit of one qubit that measures a superposition. *)
Definition coin_example : QuantumCircuit :=
  {| qregs := [QuantumRegister 1 "q"];
     cregs := [ClassicalRegister 1 "c"];
     data := [HGate 0; Measure 0 0] |}.

(* ===================================================================== *)
(** * The functions on small inputs *)
(* ===================================================================== *)

Example canonical_bitstring_abcdef :
  canonical_bitstring (lit "abcdef") = Ok (lit "daebfc").
Proof. reflexivity. Qed.

Example canonical_bitstring_odd :
  canonical_bitstring (lit "abcde") = Ok (lit "cadb").
Proof. reflexivity. Qed.

Example int_base2_chars :
  int_base2 48 = Ok 0%Z ∧ int_base2 49 = Ok 1%Z ∧
  int_base2 50 = Raise ValueError ∧ int_base2 0x661 = Ok 1%Z.
Proof. by repeat split. Qed.

Example superdense_coder_0110 :
  superdense_coder (lit "0110") []
  = (Ok 0%nat,
     [ {| qregs := [QuantumRegister 2 "qa"; QuantumRegister 2 "qb"];
          cregs := [ClassicalRegister 4 "meas"];
          data := [HGate 0; CXGate 0 2; HGate 1; CXGate 1 3;
                   Barrier [0; 1; 2; 3];
                   ZGate 0; XGate 1;
                   Barrier [0; 1; 2; 3];
                   CXGate 0 2; HGate 0; CXGate 1 3; HGate 1;
                   Barrier [0; 1; 2; 3];
                   Measure 0 0; Measure 1 1; Measure 2 2; Measure 3 3]%nat |} ]).
Proof. reflexivity. Qed.

Example superdense_coder_odd_input :
  superdense_coder (lit "011") [] = (Raise AssertionError, []).
Proof. reflexivity. Qed.

Example superdense_coder_letter :
  superdense_coder (lit "0a") [] = (Raise ValueError, []).
Proof. reflexivity. Qed.

(** The state of carrier B in a Bell pair is the maximally mixed one; after
    a Hadamard gate on carrier B alone it is not. *)
Example reduced_bell_pair :
  let ψ := apply_cx 0 1 (apply_h 0 zero_state) in
  (reduced 2 1 ψ false false, reduced 2 1 ψ false true,
   reduced 2 1 ψ true false, reduced 2 1 ψ true true) = (1, 0, 0, 1)%Z.
Proof. reflexivity. Qed.

Example reduced_plus :
  let ψ := apply_h 1 zero_state in
  (reduced 2 1 ψ false false, reduced 2 1 ψ false true,
   reduced 2 1 ψ true false, reduced 2 1 ψ true true) = (1, 1, 1, 1)%Z.
Proof. reflexivity. Qed.

(** One shot of a Hadamard gate followed by a measurement: the outcome
    follows the random number. *)
Example run_shot_hadamard :
  let qc := {| qregs := [QuantumRegister 1 "q"];
               cregs := [ClassicalRegister 1 "c"];
               data := [HGate 0; Measure 0 0] |} in
  memory (run_shot qc (λ _, 0%N)) = [true] ∧
  memory (run_shot qc (λ _, 1%N)) = [false].
Proof. by split. Qed.

(* ===================================================================== *)
(** * [canonical_bitstring] is a reindexing and a bijection *)
(* ===================================================================== *)

Section canonical.

Lemma index_lt {A} `{!Inhabited A} (l : list A) i :
  (i < length l)%nat → index l i = Ok (l !!! i).
Proof.
  intros Hi. unfold index.
  by rewrite (list_lookup_lookup_total_lt l i Hi).
Qed.

Lemma str_index_lt (s : str) i :
  (i < length s)%nat → str_index s i = Ok [s !!! i].
Proof. intros Hi. unfold str_index. by rewrite index_lt. Qed.

(** The loop of [canonical_bitstring], started at [a] with [bs2 = acc]. *)
Lemma canonical_loop (bs : str) N n : ∀ a acc,
  (a + n ≤ N)%nat → (N + N ≤ length bs)%nat →
  for_acc (λ bs2 i,
             hi ← str_index bs (i + N);
             lo ← str_index bs i;
             Ok ((bs2 ++ [hi]) ++ [lo])) (seq a n) acc
  = Ok (acc ++ flat_map (λ i, [[bs !!! (i + N)%nat]; [bs !!! i]]) (seq a n)).
Proof.
  induction n as [|n IH]; intros a acc Ha Hlen; simpl.
  - by rewrite app_nil_r.
  - rewrite !str_index_lt by lia. simpl.
    rewrite IH by lia. by rewrite <- !app_assoc.
Qed.

Lemma flat_map_pairs {A} (g : nat → A) n : ∀ a,
  flat_map (λ i, [g (2 * i)%nat; g (2 * i + 1)%nat]) (seq a n)
  = g <$> seq (2 * a) (2 * n).
Proof.
  induction n as [|n IH]; intros a; [done|].
  replace (2 * S n)%nat with (S (S (2 * n))) by lia. simpl.
  rewrite IH. repeat f_equal; lia.
Qed.

Lemma concat_pairs {A} (x y : nat → A) l :
  concat (flat_map (λ i, [[x i]; [y i]]) l) = flat_map (λ i, [x i; y i]) l.
Proof. induction l as [|i l IH]; simpl; [done|]. by rewrite IH. Qed.

Lemma canonical_index_even N i : canonical_index N (2 * i) = (i + N)%nat.
Proof.
  unfold canonical_index.
  replace (Nat.even (2 * i)) with true by (by rewrite Nat.even_mul).
  by rewrite (Nat.mul_comm 2), Nat.div_mul.
Qed.

Lemma canonical_index_odd N i : canonical_index N (2 * i + 1) = i.
Proof.
  unfold canonical_index.
  replace (Nat.even (2 * i + 1)) with false
    by (by rewrite Nat.even_add, Nat.even_mul).
  rewrite (Nat.mul_comm 2), Nat.div_add_l by lia.
  change (1 / 2)%nat with 0%nat. lia.
Qed.

Lemma canonical_index_lt N j : (j < 2 * N → canonical_index N j < 2 * N)%nat.
Proof.
  intros Hj. unfold canonical_index.
  assert (j / 2 < N)%nat by (apply Nat.Div0.div_lt_upper_bound; lia).
  destruct (Nat.even j); lia.
Qed.

Lemma inverse_index_lt N p : (p < 2 * N → inverse_index N p < 2 * N)%nat.
Proof.
  intros Hp. unfold inverse_index.
  destruct (Nat.ltb_spec p N); lia.
Qed.

Lemma canonical_inverse_index N p :
  (p < 2 * N)%nat → canonical_index N (inverse_index N p) = p.
Proof.
  intros Hp. unfold inverse_index.
  destruct (Nat.ltb_spec p N).
  - apply canonical_index_odd.
  - rewrite canonical_index_even. lia.
Qed.

Lemma inverse_canonical_index N j :
  (j < 2 * N)%nat → inverse_index N (canonical_index N j) = j.
Proof.
  intros Hj.
  destruct (Nat.Even_Odd_dec j) as [[i ->]|[i ->]].
  - rewrite canonical_index_even. unfold inverse_index.
    destruct (Nat.ltb_spec (i + N) N); lia.
  - rewrite canonical_index_odd. unfold inverse_index.
    destruct (Nat.ltb_spec i N); lia.
Qed.

Lemma length_reindex f s : length (reindex f s) = length s.
Proof. unfold reindex. by rewrite length_fmap, length_seq. Qed.

Lemma lookup_reindex f (s : str) j :
  (j < length s)%nat → (f j < length s)%nat →
  reindex f s !! j = s !! f j.
Proof.
  intros Hj Hf. unfold reindex.
  rewrite list_lookup_fmap, lookup_seq_lt by done. simpl.
  by rewrite (list_lookup_lookup_total_lt s (f j) Hf).
Qed.

(** What the code computes, as a reindexing. *)
Lemma canonical_bitstring_reindex (bs : str) N :
  length bs = (2 * N)%nat →
  canonical_bitstring bs = Ok (reindex (canonical_index N) bs).
Proof.
  intros Hlen. unfold canonical_bitstring.
  replace (length bs / 2)%nat with N
    by (rewrite Hlen, (Nat.mul_comm 2), Nat.div_mul; lia).
  rewrite canonical_loop by lia. simpl. f_equal.
  unfold reindex, join. rewrite Hlen.
  change (seq 0 (2 * N)) with (seq (2 * 0) (2 * N)).
  rewrite <- (flat_map_pairs (λ j, bs !!! canonical_index N j) N 0).
  rewrite concat_pairs. apply flat_map_ext. intros i.
  by rewrite canonical_index_even, canonical_index_odd.
Qed.

Lemma canonical_index_perm N :
  canonical_index N <$> seq 0 (2 * N) ≡ₚ seq 0 (2 * N).
Proof.
  apply NoDup_Permutation.
  - apply NoDup_fmap_2_strong; [|apply NoDup_seq].
    intros j1 j2 [_ H1]%elem_of_seq [_ H2]%elem_of_seq Heq.
    rewrite <- (inverse_canonical_index N j1), <- (inverse_canonical_index N j2) by lia.
    by rewrite Heq.
  - apply NoDup_seq.
  - intros p. rewrite list_elem_of_fmap. setoid_rewrite elem_of_seq. split.
    + intros (j & -> & _ & Hj). split; [lia|].
      apply (canonical_index_lt N j). lia.
    + intros [_ Hp]. exists (inverse_index N p). split.
      * by rewrite canonical_inverse_index by lia.
      * split; [lia|]. apply (inverse_index_lt N p). lia.
Qed.

Lemma reindex_inverse_canonical (bs : str) N :
  length bs = (2 * N)%nat →
  reindex (inverse_index N) (reindex (canonical_index N) bs) = bs.
Proof.
  intros Hlen. apply list_eq_same_length with (2 * N)%nat;
    [done|by rewrite !length_reindex|].
  intros p x y Hp Hx Hy.
  rewrite lookup_reindex in Hx
    by (rewrite length_reindex, Hlen; auto using inverse_index_lt).
  rewrite lookup_reindex in Hx
    by (rewrite Hlen; auto using inverse_index_lt, canonical_index_lt).
  rewrite canonical_inverse_index in Hx by done. congruence.
Qed.

Lemma reindex_canonical_inverse (out : str) N :
  length out = (2 * N)%nat →
  reindex (canonical_index N) (reindex (inverse_index N) out) = out.
Proof.
  intros Hlen. apply list_eq_same_length with (2 * N)%nat;
    [done|by rewrite !length_reindex|].
  intros j x y Hj Hx Hy.
  rewrite lookup_reindex in Hx
    by (rewrite length_reindex, Hlen; auto using canonical_index_lt).
  rewrite lookup_reindex in Hx
    by (rewrite Hlen; auto using inverse_index_lt, canonical_index_lt).
  rewrite inverse_canonical_index in Hx by done. congruence.
Qed.

End canonical.

(** C2.  [canonical_bitstring] is a pure reindexing: on a string of [2 * N]
    characters it returns (without raising) a string of [2 * N] characters
    whose character at [2 * i] is the input's character at [i + N] and whose
    character at [2 * i + 1] is the input's character at [i], for every pair
    index [i < N]. *)
Theorem canonical_bitstring_reindexing (bs : str) (N : nat) :
  length bs = (2 * N)%nat →
  ∃ out, canonical_bitstring bs = Ok out ∧ length out = (2 * N)%nat ∧
         ∀ i, (i < N)%nat →
              out !! (2 * i)%nat = bs !! (i + N)%nat ∧
              out !! (2 * i + 1)%nat = bs !! i.
Proof.
  intros Hlen. exists (reindex (canonical_index N) bs).
  split; [by apply canonical_bitstring_reindex|].
  split; [by rewrite length_reindex|].
  intros i Hi. split.
  - rewrite lookup_reindex by (rewrite ?canonical_index_even; lia).
    by rewrite canonical_index_even.
  - rewrite lookup_reindex by (rewrite ?canonical_index_odd; lia).
    by rewrite canonical_index_odd.
Qed.

Lemma canonical_bitstring_reindexing_witness :
  ∃ out, canonical_bitstring (lit "abcdef") = Ok out ∧ length out = (2 * 3)%nat ∧
         ∀ i, (i < 3)%nat →
              out !! (2 * i)%nat = lit "abcdef" !! (i + 3)%nat ∧
              out !! (2 * i + 1)%nat = lit "abcdef" !! i.
Proof. apply (canonical_bitstring_reindexing (lit "abcdef") 3). reflexivity. Defined.

(** C3.  For every even length [2 * N], [canonical_bitstring] is a bijection
    on the strings of that length: its index mapping is a permutation of the
    positions [0 .. 2 * N - 1], the function is the reindexing along that
    mapping, reindexing its output along the inverse mapping gives back the
    input, and every string of length [2 * N] is the image of its own inverse
    reindexing. *)
Theorem canonical_bitstring_bijection (N : nat) :
  canonical_index N <$> seq 0 (2 * N) ≡ₚ seq 0 (2 * N) ∧
  (∀ bs : str, length bs = (2 * N)%nat →
     ∃ out, canonical_bitstring bs = Ok out ∧ length out = (2 * N)%nat ∧
            reindex (inverse_index N) out = bs) ∧
  (∀ out : str, length out = (2 * N)%nat →
     length (reindex (inverse_index N) out) = (2 * N)%nat ∧
     canonical_bitstring (reindex (inverse_index N) out) = Ok out).
Proof.
  split; [apply canonical_index_perm|]. split.
  - intros bs Hlen. exists (reindex (canonical_index N) bs).
    split; [by apply canonical_bitstring_reindex|].
    split; [by rewrite length_reindex|].
    by apply reindex_inverse_canonical.
  - intros out Hlen. split; [by rewrite length_reindex|].
    rewrite (canonical_bitstring_reindex _ N) by (by rewrite length_reindex).
    f_equal. by apply reindex_canonical_inverse.
Qed.

Lemma canonical_bitstring_bijection_witness :
  (∃ out, canonical_bitstring (lit "0111") = Ok out ∧ length out = (2 * 2)%nat ∧
          reindex (inverse_index 2) out = lit "0111") ∧
  canonical_bitstring (reindex (inverse_index 2) (lit "0111")) = Ok (lit "0111").
Proof.
  destruct (canonical_bitstring_bijection 2) as (_ & Hfwd & Hbwd). split.
  - apply Hfwd. reflexivity.
  - apply Hbwd. reflexivity.
Defined.

(* ===================================================================== *)
(** * Circuit objects in the store *)
(* ===================================================================== *)

Section store.

Implicit Types (σ : list QuantumCircuit) (qc : QuantumCircuit)
  (c : nat) (i : Instruction) (instrs : list Instruction).

Lemma M_bind_ok {A B} (m : M A) (k : A → M B) σ a σ' :
  m σ = (Ok a, σ') → (m ≫= k) σ = k a σ'.
Proof. intros H. unfold mbind, M_mbind, M_bind. by rewrite H. Qed.

Lemma M_bind_raise {A B} (m : M A) (k : A → M B) σ e σ' :
  m σ = (Raise e, σ') → (m ≫= k) σ = (Raise e, σ').
Proof. intros H. unfold mbind, M_mbind, M_bind. by rewrite H. Qed.

Lemma deref_ok σ c qc : σ !! c = Some qc → deref c σ = (Ok qc, σ).
Proof. intros H. unfold deref. by rewrite H. Qed.

Lemma update_ok σ c qc f :
  σ !! c = Some qc → update c f σ = (Ok (), <[c := f qc]> σ).
Proof. intros H. unfold update. by rewrite H. Qed.

Lemma append_data_nil qc : append_data [] qc = qc.
Proof. destruct qc. unfold append_data. simpl. by rewrite app_nil_r. Qed.

Lemma append_data_app instrs1 instrs2 qc :
  append_data instrs2 (append_data instrs1 qc) = append_data (instrs1 ++ instrs2) qc.
Proof. unfold append_data. simpl. by rewrite app_assoc. Qed.

Lemma num_qubits_append_data instrs qc :
  num_qubits (append_data instrs qc) = num_qubits qc.
Proof. done. Qed.

Lemma append_ok σ c qc i :
  σ !! c = Some qc → valid_qargs (num_qubits qc) (qargs i) = true →
  append c i σ = (Ok (), <[c := append_data [i] qc]> σ).
Proof.
  intros Hc Hv. unfold append.
  rewrite (M_bind_ok _ _ _ _ _ (deref_ok _ _ _ Hc)), Hv.
  by apply update_ok.
Qed.

Lemma append_raise σ c qc i :
  σ !! c = Some qc → valid_qargs (num_qubits qc) (qargs i) = false →
  append c i σ = (Raise CircuitError, σ).
Proof.
  intros Hc Hv. unfold append.
  by rewrite (M_bind_ok _ _ _ _ _ (deref_ok _ _ _ Hc)), Hv.
Qed.

Lemma valid_qargs_1 n q : (q < n)%nat → valid_qargs n [q] = true.
Proof.
  intros Hq. unfold valid_qargs. apply andb_true_intro. split.
  - cbn [forallb]. by rewrite (proj2 (Nat.ltb_lt q n) Hq).
  - apply bool_decide_eq_true. apply NoDup_singleton.
Qed.

Lemma valid_qargs_2 n a b :
  (a < n)%nat → (b < n)%nat → a ≠ b → valid_qargs n [a; b] = true.
Proof.
  intros Ha Hb Hab. unfold valid_qargs. apply andb_true_intro. split.
  - cbn [forallb].
    by rewrite (proj2 (Nat.ltb_lt a n) Ha), (proj2 (Nat.ltb_lt b n) Hb).
  - apply bool_decide_eq_true. apply NoDup_cons. split.
    + by intros ->%list_elem_of_singleton.
    + apply NoDup_singleton.
Qed.

Lemma appends_nil n c : appends n (mret ()) c [].
Proof.
  intros σ qc Hc _. rewrite append_data_nil.
  by rewrite list_insert_id.
Qed.

Lemma appends_seq n m1 m2 c instrs1 instrs2 :
  appends n m1 c instrs1 → appends n m2 c instrs2 →
  appends n (m1;; m2) c (instrs1 ++ instrs2).
Proof.
  intros H1 H2 σ qc Hc Hn.
  rewrite (M_bind_ok _ _ _ _ _ (H1 σ qc Hc Hn)).
  rewrite (H2 _ (append_data instrs1 qc)).
  - by rewrite list_insert_insert_eq, append_data_app.
  - apply list_lookup_insert_eq. by eapply lookup_lt_Some.
  - done.
Qed.

Lemma appends_gate n c i :
  valid_qargs n (qargs i) = true → appends n (append c i) c [i].
Proof. intros Hv σ qc Hc <-. by apply append_ok. Qed.

Lemma appends_for_each {A} n c (body : A → M unit) (gen : A → list Instruction) l :
  (∀ a, a ∈ l → appends n (body a) c (gen a)) →
  appends n (for_each l body) c (flat_map gen l).
Proof.
  induction l as [|a l IH]; intros Hbody; simpl.
  - apply appends_nil.
  - apply appends_seq.
    + apply Hbody. apply list_elem_of_here.
    + apply IH. intros a' Ha'. apply Hbody. by apply list_elem_of_further.
Qed.

Lemma appends_prepare_bell_state n c a b :
  (a < n)%nat → (b < n)%nat → a ≠ b →
  appends n (prepare_bell_state c a b) c [HGate a; CXGate a b].
Proof.
  intros Ha Hb Hab. unfold prepare_bell_state.
  apply (appends_seq n _ _ c [_] [_]); apply appends_gate.
  - by apply valid_qargs_1.
  - by apply valid_qargs_2.
Qed.

(** The gates [encode_bits] appends for the bits [b0], [b1]. *)
Lemma appends_encode_bits n c q b0 b1 :
  (q < n)%nat →
  appends n (encode_bits c q b0 b1) c
    (encoding_gates q b0 b1).
Proof.
  intros Hq. unfold encode_bits. apply appends_seq.
  - destruct b0; [|apply appends_nil].
    apply appends_gate. by apply valid_qargs_1.
  - destruct b1; [|apply appends_nil].
    apply appends_gate. by apply valid_qargs_1.
Qed.

Lemma appends_decode_bits n c a b :
  (a < n)%nat → (b < n)%nat → a ≠ b →
  appends n (decode_bits c a b) c [CXGate a b; HGate a].
Proof.
  intros Ha Hb Hab. unfold decode_bits.
  apply (appends_seq n _ _ c [_] [_]); apply appends_gate.
  - by apply valid_qargs_2.
  - by apply valid_qargs_1.
Qed.

Lemma appends_barrier n c : appends n (barrier c) c [Barrier (seq 0 n)].
Proof.
  intros σ qc Hc <-. unfold barrier.
  rewrite (M_bind_ok _ _ _ _ _ (deref_ok _ _ _ Hc)).
  by apply update_ok.
Qed.

(** Running an appending computation in front of a continuation. *)
Lemma appends_then {B} n (m : M unit) (k : M B) c instrs σ qc :
  appends n m c instrs → σ !! c = Some qc → num_qubits qc = n →
  (m;; k) σ = k (<[c := append_data instrs qc]> σ).
Proof. intros Hm Hc Hn. by rewrite (M_bind_ok _ _ _ _ _ (Hm σ qc Hc Hn)). Qed.

Lemma carrier_pairs_elem N a b :
  (a, b) ∈ carrier_pairs N → (a < N)%nat ∧ b = (N + a)%nat.
Proof.
  intros (i & Hi)%list_elem_of_lookup. unfold carrier_pairs in Hi.
  apply lookup_zip_with_Some in Hi as (x & y & [= -> ->] & Hx & Hy).
  apply lookup_seq in Hx as [-> Hlt], Hy as [-> _]. done.
Qed.

Lemma length_rows2 {A} (l : list A) : length (rows2 l) = (length l / 2)%nat.
Proof.
  induction l as [[|a [|b l]] IH] using (induction_ltof1 _ (@length A));
    [done..|].
  cbn [rows2 length]. rewrite IH by (unfold ltof; simpl; lia).
  change (S (S (length l))) with (1 * 2 + length l)%nat.
  by rewrite Nat.div_add_l.
Qed.

Lemma rows2_pairs {A} (l : list A) row :
  row ∈ rows2 l → ∃ a b, row = [a; b].
Proof.
  induction l as [[|a [|b l]] IH] using (induction_ltof1 _ (@length A));
    cbn [rows2]; [by intros ?%elem_of_nil..|].
  intros [->|Hin]%elem_of_cons; [by eauto|].
  apply (IH l); [unfold ltof; simpl; lia|done].
Qed.

Lemma enumerate_elem {A} (l : list A) q a :
  (q, a) ∈ enumerate l → (q < length l)%nat ∧ a ∈ l.
Proof.
  intros (i & Hi)%list_elem_of_lookup. unfold enumerate in Hi.
  apply lookup_zip_with_Some in Hi as (x & y & [= -> ->] & Hx & Hy).
  apply lookup_seq in Hx as [-> Hlt]. split; [done|].
  by eapply list_elem_of_lookup_2.
Qed.

Lemma length_comprehension {A B} (f : A → result B) l l' :
  comprehension f l = Ok l' → length l' = length l.
Proof.
  revert l'. induction l as [|a l IH]; intros l'; simpl.
  - by intros [= <-].
  - destruct (f a) as [b|]; [|done]. simpl.
    destruct (comprehension f l) as [bs|]; [|done]. simpl.
    intros [= <-]. simpl. by rewrite (IH bs).
Qed.

(** [superdense_coder] on an input of even length whose characters all
    convert: it returns a new circuit object, the one described by
    [coder_circuit]. *)
Lemma superdense_coder_returns bs bits σ :
  (length bs mod 2 = 0)%nat → comprehension int_base2 bs = Ok bits →
  superdense_coder bs σ = (Ok (length σ), σ ++ [coder_circuit bits]).
Proof.
  intros Heven Hbits. unfold superdense_coder.
  rewrite (proj2 (Nat.eqb_eq _ _) Heven).
  erewrite M_bind_ok by reflexivity.
  erewrite M_bind_ok by (unfold lift; rewrite Hbits; reflexivity).
  pose proof (length_comprehension _ _ _ Hbits) as Hlen.
  set (N := (length bits / 2)%nat).
  assert (length bits = (2 * N)%nat) as HN.
  { subst N. rewrite Hlen. pose proof (Nat.div_mod_eq (length bs) 2). lia. }
  erewrite M_bind_ok; last first.
  { unfold lift, reshape2.
    rewrite (proj2 (Nat.eqb_eq (length bits) (N * 2)%nat)) by lia. reflexivity. }
  erewrite M_bind_ok by reflexivity.
  set (qc0 := {| qregs := _; cregs := []; data := [] |}).
  assert ((σ ++ [qc0]) !! length σ = Some qc0) as Hc0
    by (by rewrite lookup_app_r, Nat.sub_diag).
  assert (num_qubits qc0 = (2 * N)%nat) as Hn0 by done.
  assert (∀ (σ' : list QuantumCircuit) qc', σ' !! length σ = Some qc' →
            ∀ instrs, <[length σ := append_data instrs qc']> σ' !! length σ
                      = Some (append_data instrs qc')) as Hstep.
  { intros σ' qc' Hc' instrs. apply list_lookup_insert_eq. by eapply lookup_lt_Some. }
  (* Bell pairs *)
  erewrite (appends_then (2 * N)); [| |exact Hc0|exact Hn0]; last first.
  { apply (appends_for_each _ _ _ (λ p, [HGate p.1; CXGate p.1 p.2])).
    intros [a b] [Ha ->]%carrier_pairs_elem.
    apply appends_prepare_bell_state; simpl; lia. }
  erewrite (appends_then (2 * N)); [|apply appends_barrier|by apply Hstep|done].
  rewrite list_insert_insert_eq, append_data_app.
  (* encoding *)
  erewrite (appends_then (2 * N)); [| |by apply Hstep|done]; last first.
  { apply (appends_for_each _ _ _ encode_row).
    intros [q row] [Hq Hrow]%enumerate_elem.
    rewrite length_rows2 in Hq. fold N in Hq.
    apply rows2_pairs in Hrow as (b0 & b1 & ->).
    intros σ' qc' Hc' Hn'.
    erewrite M_bind_ok by reflexivity.
    erewrite M_bind_ok by reflexivity.
    by apply (appends_encode_bits (2 * N)); [lia|..]. }
  rewrite list_insert_insert_eq, append_data_app.
  erewrite (appends_then (2 * N)); [|apply appends_barrier|by apply Hstep|done].
  rewrite list_insert_insert_eq, append_data_app.
  (* decoding *)
  erewrite (appends_then (2 * N)); [| |by apply Hstep|done]; last first.
  { apply (appends_for_each _ _ _ (λ p, [CXGate p.1 p.2; HGate p.1])).
    intros [a b] [Ha ->]%carrier_pairs_elem.
    apply appends_decode_bits; simpl; lia. }
  rewrite list_insert_insert_eq, append_data_app.
  (* measurement *)
  unfold measure_all.
  erewrite M_bind_ok; last first.
  { erewrite M_bind_ok by (apply deref_ok; by apply Hstep).
    apply update_ok. by apply Hstep. }
  rewrite list_insert_insert_eq.
  unfold mret, M_mret, M_ret. f_equal.
  rewrite insert_app_r_alt, Nat.sub_diag by done. simpl.
  unfold coder_circuit, coder_data. unfold bell_stage, encode_stage, decode_stage.
  unfold decode_gates, carrier_pairs. cbn zeta. fold N.
  rewrite <- !app_assoc. reflexivity.
Qed.

Lemma bit_pair_circuit_returns b0 b1 σ :
  bit_pair_circuit b0 b1 σ = (Ok (length σ), σ ++ [pair_circuit b0 b1]).
Proof.
  unfold bit_pair_circuit.
  erewrite M_bind_ok by reflexivity.
  set (qc0 := {| qregs := _; cregs := []; data := [] |}).
  assert ((σ ++ [qc0]) !! length σ = Some qc0) as Hc0
    by (by rewrite lookup_app_r, Nat.sub_diag).
  assert (∀ (σ' : list QuantumCircuit) qc', σ' !! length σ = Some qc' →
            ∀ instrs, <[length σ := append_data instrs qc']> σ' !! length σ
                      = Some (append_data instrs qc')) as Hstep.
  { intros σ' qc' Hc' instrs. apply list_lookup_insert_eq. by eapply lookup_lt_Some. }
  erewrite (appends_then 2); [|apply appends_prepare_bell_state; lia|exact Hc0|done].
  erewrite (appends_then 2); [|apply appends_encode_bits; lia|by apply Hstep|done].
  rewrite list_insert_insert_eq, append_data_app.
  erewrite (appends_then 2); [|apply appends_decode_bits; lia|by apply Hstep|done].
  rewrite list_insert_insert_eq, append_data_app.
  unfold measure_all.
  erewrite M_bind_ok; last first.
  { erewrite M_bind_ok by (apply deref_ok; by apply Hstep).
    apply update_ok. by apply Hstep. }
  rewrite list_insert_insert_eq.
  unfold mret, M_mret, M_ret. f_equal.
  rewrite insert_app_r_alt, Nat.sub_diag by done. simpl.
  unfold pair_circuit. by rewrite <- !app_assoc.
Qed.

End store.

(* ===================================================================== *)
(** * The simulator *)
(* ===================================================================== *)

Section simulator.

Implicit Types (ψ : Statevector) (i : N) (q : nat).

Lemma Zsum_ext (f g : N → Z) l :
  (∀ i, i ∈ l → f i = g i) → Zsum f l = Zsum g l.
Proof.
  induction l as [|i l IH]; intros H; simpl; [done|].
  rewrite H by apply list_elem_of_here.
  rewrite IH; [done|]. intros j Hj. apply H. by apply list_elem_of_further.
Qed.

Lemma Zsum_zero (f : N → Z) l : (∀ i, i ∈ l → f i = 0%Z) → Zsum f l = 0%Z.
Proof.
  induction l as [|i l IH]; intros H; simpl; [done|].
  rewrite H by apply list_elem_of_here.
  rewrite IH; [done|]. intros j Hj. apply H. by apply list_elem_of_further.
Qed.

Lemma Zsum_perm (f : N → Z) l l' : l ≡ₚ l' → Zsum f l = Zsum f l'.
Proof. induction 1; simpl; lia. Qed.

Lemma Zsum_fmap (f : N → Z) (g : N → N) l : Zsum f (g <$> l) = Zsum (f ∘ g) l.
Proof.
  induction l as [|i l IH]; [done|].
  exact (f_equal (Z.add (f (g i))) IH).
Qed.

(** A sum with a single non-zero term. *)
Lemma Zsum_single (f : N → Z) l i0 :
  NoDup l → i0 ∈ l → (∀ i, i ∈ l → i ≠ i0 → f i = 0%Z) → Zsum f l = f i0.
Proof.
  induction l as [|i l IH]; intros Hnd Hin Hz.
  - by apply elem_of_nil in Hin.
  - apply NoDup_cons in Hnd as [Hi Hnd]. simpl.
    destruct (decide (i = i0)) as [->|Hne].
    + rewrite Zsum_zero; [lia|].
      intros j Hj. apply Hz; [by apply list_elem_of_further|].
      by intros ->.
    + rewrite Hz by (done || apply list_elem_of_here).
      apply elem_of_cons in Hin as [->|Hin]; [done|].
      rewrite IH; [done..|]. intros j Hj. apply Hz. by apply list_elem_of_further.
Qed.

Lemma NoDup_basis n : NoDup (basis n).
Proof. apply NoDup_fmap_2, NoDup_seq. intros ???; lia. Qed.

Lemma elem_of_basis n i : i ∈ basis n ↔ (i < 2 ^ N.of_nat n)%N.
Proof.
  unfold basis. rewrite list_elem_of_fmap. setoid_rewrite elem_of_seq.
  assert (N.of_nat (2 ^ n) = (2 ^ N.of_nat n)%N) as Hpow.
  { induction n as [|n IH]; [done|].
    rewrite Nat2N.inj_succ, N.pow_succ_r', <- IH. simpl. lia. }
  split.
  - intros (k & -> & _ & Hk). lia.
  - intros Hi. exists (N.to_nat i). split; [by rewrite N2Nat.id|]. lia.
Qed.

Lemma concentratedb_correct n ψ i0 :
  concentratedb n ψ i0 = true → concentrated n ψ i0.
Proof.
  unfold concentratedb. intros [Hin Hall]%andb_true_iff.
  apply bool_decide_eq_true in Hin.
  rewrite forallb_forall in Hall. split; [done|]. split.
  - apply list_elem_of_In, Hall in Hin. rewrite N.eqb_refl in Hin.
    apply negb_true_iff, Z.eqb_neq in Hin. done.
  - intros i Hi Hne. apply list_elem_of_In, Hall in Hi.
    rewrite (proj2 (N.eqb_neq i i0) Hne) in Hi. by apply Z.eqb_eq.
Qed.

Lemma weight_concentrated n ψ i0 (P : N → bool) :
  concentrated n ψ i0 →
  weight n P ψ = if P i0 then (ψ i0 * ψ i0)%Z else 0%Z.
Proof.
  intros (Hin & _ & Hz). unfold weight.
  rewrite (Zsum_single _ _ i0); [done|apply NoDup_basis|done|].
  intros i Hi Hne. rewrite (Hz i Hi Hne). by destruct (P i).
Qed.

Lemma norm2_concentrated n ψ i0 :
  concentrated n ψ i0 → norm2 n ψ = (ψ i0 * ψ i0)%Z.
Proof. intros H. unfold norm2. by rewrite (weight_concentrated n ψ i0). Qed.

(** Born probability 1 for the basis state a concentrated state sits on. *)
Lemma probability_concentrated n ψ i0 :
  concentrated n ψ i0 → (probability n ψ i0 == 1)%Q.
Proof.
  intros H. unfold probability. rewrite (norm2_concentrated n ψ i0 H).
  destruct H as (_ & Hne & _).
  apply Qmult_inv_r. unfold Qeq. simpl. nia.
Qed.

Lemma collapse_concentrated n ψ i0 q :
  concentrated n ψ i0 → concentrated n (collapse q (bit i0 q) ψ) i0.
Proof.
  intros (Hin & Hne & Hz). unfold collapse. split; [done|]. split.
  - by rewrite bool_decide_eq_true_2.
  - intros i Hi Hi0. rewrite (Hz i Hi Hi0). by case_bool_decide.
Qed.

(** Measuring a qubit of a concentrated state: the outcome is the bit of
    the basis state, whatever the random number. *)
Lemma execute_measure_concentrated n u q c (s : Shot) i0 :
  concentrated n (sv s) i0 →
  execute n u (Measure q c) s
  = {| sv := collapse q (bit i0 q) (sv s);
       memory := <[c := bit i0 q]> (memory s) |}.
Proof.
  intros H. cbn [execute].
  rewrite (norm2_concentrated n _ i0 H), (weight_concentrated n _ i0 _ H).
  destruct H as (_ & Hne & _).
  assert (0 < sv s i0 * sv s i0)%Z as Hpos by nia.
  pose proof (Z.mod_pos_bound (Z.of_N u) _ Hpos) as Hmod.
  replace (Z.of_N u `mod` (sv s i0 * sv s i0) <?
           (if bit i0 q then sv s i0 * sv s i0 else 0))%Z with (bit i0 q); [done|].
  destruct (bit i0 q); symmetry.
  - apply Z.ltb_lt. lia.
  - apply Z.ltb_ge. lia.
Qed.

Lemma execute_all_app n draw pos instrs1 instrs2 (s : Shot) :
  execute_all n draw pos (instrs1 ++ instrs2) s
  = execute_all n draw (pos + length instrs1) instrs2
      (execute_all n draw pos instrs1 s).
Proof.
  revert pos s. induction instrs1 as [|i instrs1 IH]; intros pos s; simpl.
  - by rewrite Nat.add_0_r.
  - rewrite IH. f_equal. lia.
Qed.

(** Gates and barriers draw no random number. *)
Lemma execute_unitary n u u' (i : Instruction) (s : Shot) :
  is_unitary i = true → execute n u i s = execute n u' i s.
Proof. by destruct i. Qed.

Lemma execute_all_unitary n draw draw' pos pos' instrs (s : Shot) :
  forallb is_unitary instrs = true →
  execute_all n draw pos instrs s = execute_all n draw' pos' instrs s.
Proof.
  revert pos pos' s. induction instrs as [|i instrs IH]; intros pos pos' s; [done|].
  cbn [forallb execute_all]. intros [Hi Hrest]%andb_true_iff.
  rewrite (execute_unitary n _ (draw' pos') i s Hi). by apply IH.
Qed.

(** Measurements of a concentrated state read out its basis index. *)
Lemma execute_all_readout n draw pos instrs (s : Shot) i0 :
  forallb is_readout instrs = true → concentrated n (sv s) i0 →
  concentrated n (sv (execute_all n draw pos instrs s)) i0 ∧
  memory (execute_all n draw pos instrs s) = readout i0 instrs (memory s).
Proof.
  revert pos s. induction instrs as [|i instrs IH]; intros pos s; [done|].
  cbn [forallb execute_all]. intros [Hi Hrest]%andb_true_iff Hconc.
  destruct i as [| | | | |q c]; try done.
  - by apply IH.
  - rewrite (execute_measure_concentrated n _ q c s i0 Hconc).
    apply IH; [done|]. simpl. by apply collapse_concentrated.
Qed.

Lemma memory_execute_all_unitary n draw pos instrs (s : Shot) :
  forallb is_unitary instrs = true →
  memory (execute_all n draw pos instrs s) = memory s.
Proof.
  revert pos s. induction instrs as [|i instrs IH]; intros pos s; [done|].
  cbn [forallb execute_all]. intros [Hi Hrest]%andb_true_iff.
  rewrite IH by done. by destruct i.
Qed.

(** A circuit whose gates come first and leave a concentrated state:
    every shot reads out the same classical bits. *)
Lemma run_shot_readout (qc : QuantumCircuit) k i0 draw :
  forallb is_unitary (take k (data qc)) = true →
  forallb is_readout (drop k (data qc)) = true →
  concentrated (num_qubits qc)
    (sv (execute_all (num_qubits qc) (λ _, 0%N) 0 (take k (data qc))
           {| sv := zero_state; memory := replicate (num_clbits qc) false |})) i0 →
  memory (run_shot qc draw)
  = readout i0 (drop k (data qc)) (replicate (num_clbits qc) false).
Proof.
  intros Hpre Hpost Hconc. unfold run_shot.
  rewrite <- (take_drop k (data qc)) at 1.
  rewrite execute_all_app.
  rewrite (execute_all_unitary _ draw (λ _, 0%N) 0 0 _ _ Hpre).
  destruct (execute_all_readout (num_qubits qc) draw
              (0 + length (take k (data qc))) (drop k (data qc)) _ i0 Hpost Hconc)
    as [_ ->].
  by rewrite memory_execute_all_unitary.
Qed.

Lemma fmap_seq_const {A} (a : A) n j : (λ _, a) <$> seq j n = replicate n a.
Proof. revert j. induction n as [|n IH]; intros j; simpl; [done|]. by rewrite IH. Qed.

Lemma foldl_count_replicate key k j :
  foldl count {[key := j]} (replicate k key) = {[key := (k + j)%nat]}.
Proof.
  revert j. induction k as [|k IH]; intros j; simpl; [done|].
  unfold count at 2. rewrite lookup_singleton_eq. simpl.
  rewrite insert_singleton_eq, IH. f_equal. lia.
Qed.

Lemma get_counts_constant (qc : QuantumCircuit) mem k :
  num_clbits qc ≠ 0%nat → k ≠ 0%nat →
  get_counts qc (replicate k mem) = Ok {[format_memory qc mem := k]}.
Proof.
  intros Hcl Hk. unfold get_counts.
  rewrite (proj2 (Nat.eqb_neq _ _) Hcl). f_equal.
  rewrite fmap_replicate. destruct k as [|k]; [done|]. simpl.
  unfold count at 2. rewrite lookup_empty. simpl.
  rewrite insert_empty, foldl_count_replicate. f_equal. lia.
Qed.

(** Simulating such a circuit: the whole count is on one key. *)
Lemma simulate_circuit_deterministic (qc : QuantumCircuit) k i0 key rnd n_samples :
  forallb is_unitary (take k (data qc)) = true →
  forallb is_readout (drop k (data qc)) = true →
  concentrated (num_qubits qc)
    (sv (execute_all (num_qubits qc) (λ _, 0%N) 0 (take k (data qc))
           {| sv := zero_state; memory := replicate (num_clbits qc) false |})) i0 →
  num_clbits qc ≠ 0%nat →
  canonical_bitstring
    (reversed (format_memory qc
       (readout i0 (drop k (data qc)) (replicate (num_clbits qc) false)))) = Ok key →
  simulate_circuit rnd qc n_samples = Ok {[key := DEFAULT_SHOTS]}.
Proof.
  intros Hpre Hpost Hconc Hcl Hkey. unfold simulate_circuit, run, transpile.
  cbn [default].
  rewrite (list_fmap_ext _ (λ _, readout i0 (drop k (data qc))
                                   (replicate (num_clbits qc) false)))
    by (intros ? s _; by apply run_shot_readout).
  rewrite fmap_seq_const, get_counts_constant by done.
  change (Ok ?m ≫= ?f) with (f m). cbn beta.
  rewrite map_to_list_singleton. cbn [for_acc].
  rewrite Hkey. simpl. by rewrite insert_empty.
Qed.

End simulator.

(* ===================================================================== *)
(** * Gates on one qubit leave the other qubits' state alone *)
(* ===================================================================== *)

Section frame.

Implicit Types (ψ : Statevector) (i : N) (q b : nat).

Lemma bit_flip_same i q : bit (flip i q) q = negb (bit i q).
Proof.
  unfold bit, flip.
  rewrite N.lxor_spec, N.shiftl_1_l, N.pow2_bits_true.
  by destruct (N.testbit i (N.of_nat q)).
Qed.

Lemma bit_flip_other i q b : q ≠ b → bit (flip i q) b = bit i b.
Proof.
  intros Hne. unfold bit, flip.
  rewrite N.lxor_spec, N.shiftl_1_l, N.pow2_bits_false by lia.
  by destruct (N.testbit i (N.of_nat b)).
Qed.

Lemma flip_flip i q : flip (flip i q) q = i.
Proof.
  unfold flip. by rewrite N.lxor_assoc, N.lxor_nilpotent, N.lxor_0_r.
Qed.

Lemma flip_comm i q b : flip (flip i q) b = flip (flip i b) q.
Proof.
  unfold flip. rewrite !N.lxor_assoc. f_equal. apply N.lxor_comm.
Qed.

Lemma flip_basis n i q : (q < n)%nat → i ∈ basis n → flip i q ∈ basis n.
Proof.
  intros Hq. rewrite !elem_of_basis. intros Hi.
  assert (∀ j, (j < 2 ^ N.of_nat n)%N ↔ N.shiftr j (N.of_nat n) = 0%N) as Hlt.
  { intros j. rewrite N.shiftr_div_pow2.
    rewrite N.div_small_iff by (apply N.pow_nonzero; lia). done. }
  apply Hlt. apply Hlt in Hi. unfold flip.
  rewrite N.shiftr_lxor, Hi, N.lxor_0_l. apply Hlt.
  rewrite N.shiftl_1_l. apply N.pow_lt_mono_r; lia.
Qed.

Lemma flip_basis_perm n q : (q < n)%nat → (λ i, flip i q) <$> basis n ≡ₚ basis n.
Proof.
  intros Hq. apply NoDup_Permutation.
  - apply NoDup_fmap_2_strong; [|apply NoDup_basis].
    intros i j _ _ Heq. by rewrite <- (flip_flip i q), Heq, flip_flip.
  - apply NoDup_basis.
  - intros i. rewrite list_elem_of_fmap. split.
    + intros (j & -> & Hj). by apply flip_basis.
    + intros Hi. exists (flip i q). split; [by rewrite flip_flip|].
      by apply flip_basis.
Qed.

Lemma with_bit_flip i q b v :
  q ≠ b → with_bit (flip i q) b v = flip (with_bit i b v) q.
Proof.
  intros Hne. unfold with_bit. rewrite bit_flip_other by done.
  case_bool_decide; [done|]. apply flip_comm.
Qed.

Lemma bit_with_bit_other i q b v : q ≠ b → bit (with_bit i b v) q = bit i q.
Proof.
  intros Hne. unfold with_bit. case_bool_decide; [done|].
  by apply bit_flip_other.
Qed.

Lemma reduced_apply_x n q b ψ s t :
  (q < n)%nat → q ≠ b →
  reduced n b (apply_x q ψ) s t = reduced n b ψ s t.
Proof.
  intros Hq Hne. unfold reduced, apply_x.
  rewrite <- (Zsum_perm _ _ _ (flip_basis_perm n q Hq)), Zsum_fmap.
  apply Zsum_ext. intros i _. unfold compose.
  rewrite bit_flip_other, !with_bit_flip by done. by rewrite !flip_flip.
Qed.

Lemma reduced_apply_z n q b ψ s t :
  q ≠ b → reduced n b (apply_z q ψ) s t = reduced n b ψ s t.
Proof.
  intros Hne. unfold reduced, apply_z.
  apply Zsum_ext. intros i _.
  rewrite !bit_with_bit_other by done.
  destruct (bit i b), (bit i q); lia.
Qed.

(** The gates of [encode_bits] on qubit [q], run on any state: the state
    of every other qubit and the classical bits are as before. *)
Lemma reduced_encoding_gates n q b (b0 b1 : bool) draw pos (sh : Shot) s t :
  (q < n)%nat → q ≠ b →
  reduced n b (sv (execute_all n draw pos (encoding_gates q b0 b1) sh)) s t
  = reduced n b (sv sh) s t ∧
  memory (execute_all n draw pos (encoding_gates q b0 b1) sh) = memory sh.
Proof.
  intros Hq Hne.
  destruct b0, b1; cbn; rewrite ?reduced_apply_z, ?reduced_apply_x by done; done.
Qed.

End frame.

(* ===================================================================== *)
(** * The stages of the circuit and the inputs [superdense_coder] rejects *)
(* ===================================================================== *)

Section coder.

Lemma coder_data_stages bits :
  coder_data bits
  = bell_stage (length bits / 2) ++ encode_stage bits ++ decode_stage (length bits / 2).
Proof. done. Qed.

Lemma execute_all_acts_off n b draw instrs : ∀ pos (sh : Shot) s t,
  forallb (acts_off n b) instrs = true →
  reduced n b (sv (execute_all n draw pos instrs sh)) s t = reduced n b (sv sh) s t ∧
  memory (execute_all n draw pos instrs sh) = memory sh.
Proof.
  induction instrs as [|i instrs IH]; intros pos sh s t; [done|].
  cbn [forallb execute_all]. intros [Hi Hrest]%andb_true_iff.
  destruct (IH (S pos) (execute n (draw pos) i sh) s t Hrest) as [-> ->].
  destruct i as [|q|q| | |]; try done; cbn [execute sv memory acts_off] in *;
    apply andb_true_iff in Hi as [Hq%Nat.ltb_lt Hne%negb_true_iff%Nat.eqb_neq].
  - by rewrite reduced_apply_x.
  - by rewrite reduced_apply_z.
Qed.

Lemma encode_row_acts_off N n b q row :
  (q < N)%nat → (N ≤ b)%nat → (N ≤ n)%nat →
  forallb (acts_off n b) (encode_row (q, row)) = true.
Proof.
  intros Hq Hb Hn. unfold encode_row. cbn [fst snd].
  assert ((q <? n)%nat && negb (q =? b)%nat = true) as Hok.
  { rewrite (proj2 (Nat.ltb_lt q n)) by lia.
    by rewrite (proj2 (Nat.eqb_neq q b)) by lia. }
  destruct row as [|b0 [|b1 [|]]]; try done.
  unfold encoding_gates.
  destruct (truthy b0), (truthy b1); cbn [app forallb acts_off]; by rewrite ?Hok.
Qed.

Lemma encode_stage_acts_off bits b :
  (length bits / 2 ≤ b)%nat →
  forallb (acts_off (2 * (length bits / 2)) b) (encode_stage bits) = true.
Proof.
  intros Hb. unfold encode_stage. cbn zeta.
  rewrite !forallb_app. cbn [forallb acts_off]. rewrite !andb_true_r, andb_true_l.
  apply forallb_forall. intros i (p & Hp & Hi)%in_flat_map.
  destruct p as [q row].
  apply list_elem_of_In, enumerate_elem in Hp as [Hq _].
  rewrite length_rows2 in Hq.
  pose proof (encode_row_acts_off _ (2 * (length bits / 2)) b q row Hq Hb) as Hall.
  rewrite forallb_forall in Hall. apply Hall; [lia|done].
Qed.

Lemma int_base2_Ok c :
  (∃ z, int_base2 c = Ok z) ↔ binary_digit c.
Proof.
  unfold int_base2, binary_digit.
  destruct (decimal c) as [[|[p|p|]]|]; split;
    try (intros [z [=]]); try (intros [[=]|[=]]); eauto.
Qed.

Lemma int_base2_Raise c : ¬ binary_digit c → int_base2 c = Raise ValueError.
Proof.
  unfold int_base2, binary_digit.
  destruct (decimal c) as [[|[p|p|]]|]; intros H; try done; destruct H; auto.
Qed.

Lemma is_bit_binary_digit c : is_bit c → binary_digit c.
Proof. intros [->| ->]; [by left|by right]. Qed.

Lemma comprehension_Ok bs :
  Forall binary_digit bs → ∃ bits, comprehension int_base2 bs = Ok bits.
Proof.
  induction 1 as [|c bs Hc _ [bits IH]]; [by exists []|].
  apply int_base2_Ok in Hc as [z Hz]. exists (z :: bits).
  cbn [comprehension]. by rewrite Hz, IH.
Qed.

Lemma comprehension_Raise bs :
  Exists (λ c, ¬ binary_digit c) bs →
  comprehension int_base2 bs = Raise ValueError.
Proof.
  induction 1 as [c bs Hc|c bs _ IH]; cbn [comprehension].
  - by rewrite int_base2_Raise.
  - destruct (int_base2 c) as [z|e] eqn:Hc.
    + by rewrite IH.
    + destruct (decide (binary_digit c)) as [[z Hz]%int_base2_Ok|Hn]; [congruence|].
      rewrite int_base2_Raise in Hc by done. by injection Hc as <-.
Qed.

Lemma superdense_coder_odd bs σ :
  (length bs mod 2 ≠ 0)%nat → superdense_coder bs σ = (Raise AssertionError, σ).
Proof.
  intros Hodd. unfold superdense_coder.
  by rewrite (proj2 (Nat.eqb_neq _ _) Hodd).
Qed.

Lemma superdense_coder_invalid bs σ e :
  (length bs mod 2 = 0)%nat → comprehension int_base2 bs = Raise e →
  superdense_coder bs σ = (Raise e, σ).
Proof.
  intros Heven Hraise. unfold superdense_coder.
  rewrite (proj2 (Nat.eqb_eq _ _) Heven).
  erewrite M_bind_ok by reflexivity.
  by erewrite M_bind_raise by (unfold lift; rewrite Hraise; reflexivity).
Qed.

Lemma Odd_mod2 n : Nat.Odd n ↔ (n mod 2 ≠ 0)%nat.
Proof.
  pose proof (Nat.div_mod_eq n 2). pose proof (Nat.mod_upper_bound n 2).
  split.
  - intros [m ->]. lia.
  - intros Hne. exists (n / 2)%nat. lia.
Qed.

Lemma Even_mod2 n : Nat.Even n ↔ (n mod 2 = 0)%nat.
Proof.
  pose proof (Nat.div_mod_eq n 2). pose proof (Nat.mod_upper_bound n 2).
  split.
  - intros [m ->]. lia.
  - intros Hne. exists (n / 2)%nat. lia.
Qed.

End coder.

(* ===================================================================== *)
(** * The state of the circuit of [superdense_coder] *)
(* ===================================================================== *)

Section pairs.

Implicit Types (F : nat → bool → bool → Z) (G : bool → bool → Z)
  (i : N) (j k q : nat) (instr : Instruction).

Lemma Zprod_ext (t t' : nat → Z) l :
  (∀ k, k ∈ l → t k = t' k) → Zprod t l = Zprod t' l.
Proof.
  induction l as [|k l IH]; intros H; simpl; [done|].
  rewrite H by apply list_elem_of_here.
  rewrite IH; [done|]. intros k' Hk'. apply H. by apply list_elem_of_further.
Qed.

Lemma Zprod_factor (t : nat → Z) l j :
  NoDup l → j ∈ l →
  Zprod t l = (t j * Zprod (λ k, if (k =? j)%nat then 1 else t k) l)%Z.
Proof.
  induction l as [|k l IH]; intros Hnd Hin.
  - by apply elem_of_nil in Hin.
  - apply NoDup_cons in Hnd as [Hk Hnd]. simpl.
    destruct (Nat.eqb_spec k j) as [->|Hne].
    + rewrite (Zprod_ext (λ k, if (k =? j)%nat then 1%Z else t k) t); [lia|].
      intros k' Hk'. destruct (Nat.eqb_spec k' j) as [->|]; done.
    + apply elem_of_cons in Hin as [->|Hin]; [done|].
      rewrite IH by done. lia.
Qed.

Lemma Zprod_zero (t : nat → Z) l j : j ∈ l → t j = 0%Z → Zprod t l = 0%Z.
Proof.
  induction l as [|k l IH]; intros Hin Hz.
  - by apply elem_of_nil in Hin.
  - simpl. apply elem_of_cons in Hin as [->|Hin].
    + rewrite Hz. lia.
    + rewrite IH by done. lia.
Qed.

Lemma Zprod_nonzero (t : nat → Z) l : (∀ k, k ∈ l → t k ≠ 0%Z) → Zprod t l ≠ 0%Z.
Proof.
  induction l as [|k l IH]; intros H; simpl; [done|].
  apply Z.neq_mul_0. split.
  - apply H, list_elem_of_here.
  - apply IH. intros k' Hk'. apply H. by apply list_elem_of_further.
Qed.

Lemma flip_lt n i q :
  (q < n)%nat → (flip i q < 2 ^ N.of_nat n)%N ↔ (i < 2 ^ N.of_nat n)%N.
Proof.
  intros Hq. rewrite <- !elem_of_basis. split.
  - intros H. rewrite <- (flip_flip i q). by apply flip_basis.
  - by apply flip_basis.
Qed.

Lemma prod_state_at N F i j :
  (j < N)%nat → (i < 2 ^ N.of_nat (2 * N))%N →
  prod_state N F i = (F j (bit i j) (bit i (N + j)) * rest N F j i)%Z.
Proof.
  intros Hj Hi. unfold prod_state, rest.
  rewrite (proj2 (N.ltb_lt _ _) Hi).
  rewrite (Zprod_factor _ _ j); [done|apply NoDup_seq|].
  apply elem_of_seq. lia.
Qed.

Lemma prod_state_out N F i :
  ¬ (i < 2 ^ N.of_nat (2 * N))%N → prod_state N F i = 0%Z.
Proof.
  intros Hi. unfold prod_state.
  by rewrite (proj2 (N.ltb_nlt _ _) Hi).
Qed.

Lemma rest_flip N F j i q :
  (j < N)%nat → q = j ∨ q = (N + j)%nat → rest N F j (flip i q) = rest N F j i.
Proof.
  intros Hj Hq. unfold rest. apply Zprod_ext.
  intros k [_ Hk]%elem_of_seq.
  destruct (Nat.eqb_spec k j) as [|Hne]; [done|].
  rewrite !bit_flip_other by lia. done.
Qed.

Lemma rest_upd N F G j i : rest N (upd j G F) j i = rest N F j i.
Proof.
  unfold rest, upd. apply Zprod_ext. intros k _.
  by destruct (Nat.eqb_spec k j).
Qed.

Lemma upd_same j G F : upd j G F j = G.
Proof. unfold upd. by rewrite Nat.eqb_refl. Qed.

(** A gate of one pair acts on the factor of that pair. *)
Lemma execute_pair_local N instr F u (sh : Shot) :
  pair_local N instr = true →
  (∀ i, sv sh i = prod_state N F i) →
  ∀ i, sv (execute (2 * N) u instr sh) i = prod_state N (pair_step instr F) i.
Proof.
  intros Hlocal Hsv i.
  destruct instr as [q|q|q|c t|qs|q c]; cbn [pair_local pair_step execute sv] in *;
    try done; try apply Hsv.
  all: try apply Nat.ltb_lt in Hlocal.
  all: try (apply andb_true_iff in Hlocal as [Hc%Nat.ltb_lt ->%Nat.eqb_eq]).
  all: destruct (decide (i < 2 ^ N.of_nat (2 * N))%N) as [Hi|Hi].
  - (* H, inside *)
    unfold apply_h. rewrite !Hsv.
    assert (flip i q < 2 ^ N.of_nat (2 * N))%N as Hi' by (apply flip_lt; [lia|done]).
    rewrite !(prod_state_at N _ _ q) by done.
    rewrite rest_upd, upd_same, rest_flip by auto.
    rewrite bit_flip_same, bit_flip_other by lia.
    unfold h2. destruct (bit i q); simpl; lia.
  - assert (¬ (flip i q < 2 ^ N.of_nat (2 * N))%N) as Hi'
      by (rewrite flip_lt; [done|lia]).
    unfold apply_h. rewrite !Hsv, !prod_state_out by done. by destruct (bit i q).
  - (* X *)
    unfold apply_x. rewrite !Hsv.
    assert (flip i q < 2 ^ N.of_nat (2 * N))%N as Hi' by (apply flip_lt; [lia|done]).
    rewrite !(prod_state_at N _ _ q) by done.
    rewrite rest_upd, upd_same, rest_flip by auto.
    rewrite bit_flip_same, bit_flip_other by lia. done.
  - assert (¬ (flip i q < 2 ^ N.of_nat (2 * N))%N) as Hi'
      by (rewrite flip_lt; [done|lia]).
    unfold apply_x. by rewrite !Hsv, !prod_state_out by done.
  - (* Z *)
    unfold apply_z. rewrite !Hsv.
    rewrite !(prod_state_at N _ _ q) by done.
    rewrite rest_upd, upd_same.
    unfold z2. destruct (bit i q); lia.
  - unfold apply_z. rewrite !Hsv, !prod_state_out by done. by destruct (bit i q).
  - (* CX *)
    unfold apply_cx. rewrite !Hsv.
    assert (flip i (N + c) < 2 ^ N.of_nat (2 * N))%N as Hi'
      by (apply flip_lt; [lia|done]).
    rewrite !(prod_state_at N _ _ c) by done.
    rewrite rest_upd, upd_same, rest_flip by auto.
    rewrite bit_flip_same, bit_flip_other by lia.
    unfold cx2. by destruct (bit i c).
  - assert (¬ (flip i (N + c) < 2 ^ N.of_nat (2 * N))%N) as Hi'
      by (rewrite flip_lt; [done|lia]).
    unfold apply_cx. rewrite !Hsv, !prod_state_out by done. by destruct (bit i c).
Qed.

Lemma execute_all_pair_local N instrs : ∀ F draw pos (sh : Shot),
  forallb (pair_local N) instrs = true →
  (∀ i, sv sh i = prod_state N F i) →
  ∀ i, sv (execute_all (2 * N) draw pos instrs sh) i
       = prod_state N (foldl (λ F instr, pair_step instr F) F instrs) i.
Proof.
  induction instrs as [|instr instrs IH]; intros F draw pos sh Hall Hsv; [done|].
  cbn [forallb execute_all foldl] in *.
  apply andb_true_iff in Hall as [Hi Hrest].
  apply IH; [done|]. by apply execute_pair_local.
Qed.

(** The factor of pair [j] after a list of instructions. *)
Lemma foldl_pair_step_at instrs j : ∀ F,
  foldl (λ F instr, pair_step instr F) F instrs j
  = foldl (λ G instr, at_pair j instr G) (F j) instrs.
Proof.
  induction instrs as [|instr instrs IH]; intros F; [done|].
  cbn [foldl]. rewrite IH. f_equal.
  destruct instr as [q|q|q|q t|qs|q c]; cbn [pair_step at_pair]; try done;
    unfold upd; rewrite (Nat.eqb_sym j q); by destruct (Nat.eqb_spec q j) as [->|].
Qed.

Lemma foldl_at_pair_blocks j (blk : nat * nat → list Instruction)
    (eff : (bool → bool → Z) → bool → bool → Z) :
  (∀ a b G, foldl (λ G instr, at_pair j instr G) G (blk (a, b))
            = if (a =? j)%nat then eff G else G) →
  ∀ n a b G,
    foldl (λ G instr, at_pair j instr G) G (flat_map blk (zip (seq a n) (seq b n)))
    = if (a <=? j)%nat && (j <? a + n)%nat then eff G else G.
Proof.
  intros Hblk. induction n as [|n IH]; intros a b G.
  - cbn [seq zip zip_with flat_map foldl]. rewrite Nat.add_0_r.
    destruct (Nat.leb_spec a j), (Nat.ltb_spec j a); try done; exfalso; lia.
  - cbn [seq zip zip_with flat_map]. rewrite foldl_app, Hblk, IH.
    destruct (Nat.eqb_spec a j) as [->|Hne].
    + rewrite (proj2 (Nat.leb_gt (S j) j)) by lia.
      rewrite Nat.leb_refl, (proj2 (Nat.ltb_lt j (j + S n))) by lia. done.
    + destruct (Nat.leb_spec (S a) j), (Nat.leb_spec a j),
        (Nat.ltb_spec j (S a + n)), (Nat.ltb_spec j (a + S n)); try done; exfalso; lia.
Qed.

Lemma carrier_pairs_bell j N G :
  foldl (λ G instr, at_pair j instr G) G (bell_stage N)
  = if (j <? N)%nat then cx2 (h2 G) else G.
Proof.
  unfold bell_stage, carrier_pairs.
  rewrite (foldl_at_pair_blocks j _ (λ G, cx2 (h2 G))).
  - by rewrite Nat.add_0_l.
  - intros a b G'. cbn. by destruct (a =? j)%nat.
Qed.

Lemma carrier_pairs_decode j N G :
  foldl (λ G instr, at_pair j instr G) G (decode_gates N)
  = if (j <? N)%nat then h2 (cx2 G) else G.
Proof.
  unfold decode_gates, carrier_pairs.
  rewrite (foldl_at_pair_blocks j _ (λ G, h2 (cx2 G))).
  - by rewrite Nat.add_0_l.
  - intros a b G'. cbn. by destruct (a =? j)%nat.
Qed.

Lemma at_pair_encode_row j q row G :
  foldl (λ G instr, at_pair j instr G) G (encode_row (q, row))
  = if (q =? j)%nat then enc2 row G else G.
Proof.
  unfold encode_row, enc2, encoding_gates. cbn [fst snd].
  destruct row as [|r0 [|r1 [|]]]; try by destruct (q =? j)%nat.
  destruct (truthy r0), (truthy r1); cbn; by destruct (q =? j)%nat.
Qed.

Lemma foldl_at_pair_rows j rows : ∀ a G,
  foldl (λ G instr, at_pair j instr G) G
    (flat_map encode_row (zip (seq a (length rows)) rows))
  = match rows !! (j - a)%nat with
    | Some row => if (a <=? j)%nat then enc2 row G else G
    | None => G
    end.
Proof.
  induction rows as [|row rows IH]; intros a G; [done|].
  cbn [length seq zip zip_with flat_map]. rewrite foldl_app, at_pair_encode_row, IH.
  destruct (Nat.eqb_spec a j) as [->|Hne].
  - rewrite Nat.sub_diag, Nat.leb_refl. cbn [lookup list_lookup].
    replace (j - S j)%nat with 0%nat by lia.
    rewrite (proj2 (Nat.leb_gt (S j) j)) by lia. by destruct rows.
  - destruct (Nat.leb_spec a j) as [Hle|Hgt].
    + replace (j - a)%nat with (S (j - S a)) by lia. cbn [lookup list_lookup].
      by rewrite (proj2 (Nat.leb_le (S a) j)) by lia.
    + replace (j - a)%nat with 0%nat by lia.
      replace (j - S a)%nat with 0%nat by lia.
      rewrite (proj2 (Nat.leb_gt (S a) j)) by lia. cbn. by destruct rows.
Qed.

Lemma final_pair_spec r0 r1 a b :
  h2 (cx2 (enc2 [r0; r1] (cx2 (h2 zero_pair)))) a b = final_pair [r0; r1] a b.
Proof.
  unfold final_pair, enc2, row_b0, row_b1.
  by destruct (truthy r0), (truthy r1), a, b.
Qed.

(** The factor of every pair after the gates of the circuit. *)
Lemma coder_gates_at bits j row :
  rows2 bits !! j = Some row →
  ∀ a b, foldl (λ G instr, at_pair j instr G) zero_pair (coder_gates bits) a b
         = final_pair row a b.
Proof.
  intros Hrow a b.
  pose proof (lookup_lt_Some _ _ _ Hrow) as Hj. rewrite length_rows2 in Hj.
  destruct (rows2_pairs bits row) as (r0 & r1 & ->);
    [by eapply list_elem_of_lookup_2|].
  unfold coder_gates, encode_stage. cbn zeta.
  rewrite !foldl_app, carrier_pairs_bell, carrier_pairs_decode.
  rewrite (proj2 (Nat.ltb_lt _ _) Hj). cbn [foldl at_pair].
  unfold enumerate. rewrite foldl_at_pair_rows, Nat.sub_0_r, Hrow.
  cbn [Nat.leb]. apply final_pair_spec.
Qed.

Lemma bit_index_of_bits (l : list bool) q :
  bit (index_of_bits l) q = default false (l !! q).
Proof.
  revert q. induction l as [|b l IH]; intros q.
  - rewrite lookup_nil. apply N.bits_0.
  - unfold bit. cbn [index_of_bits foldr]. destruct q as [|q].
    + change (N.of_nat 0) with 0%N. by rewrite N.testbit_0_r.
    + rewrite Nat2N.inj_succ, N.testbit_succ_r. apply IH.
Qed.

Lemma index_of_bits_lt (l : list bool) :
  (index_of_bits l < 2 ^ N.of_nat (length l))%N.
Proof.
  induction l as [|b l IH]; [done|].
  cbn [index_of_bits foldr length]. fold (index_of_bits l).
  rewrite Nat2N.inj_succ, N.pow_succ_r'.
  destruct b; cbn [N.b2n]; lia.
Qed.

Lemma bit_high n i q :
  (i < 2 ^ N.of_nat n)%N → (n ≤ q)%nat → bit i q = false.
Proof.
  intros Hi Hq. unfold bit.
  destruct (N.eq_dec i 0%N) as [->|Hne]; [apply N.bits_0|].
  apply N.bits_above_log2.
  assert (N.log2 i < N.of_nat n)%N by (apply N.log2_lt_pow2; lia). lia.
Qed.

Lemma bits_eq n i i' :
  (i < 2 ^ N.of_nat n)%N → (i' < 2 ^ N.of_nat n)%N →
  (∀ q, (q < n)%nat → bit i q = bit i' q) → i = i'.
Proof.
  intros Hi Hi' Hbits. apply N.bits_inj. intros m.
  rewrite <- (N2Nat.id m). fold (bit i (N.to_nat m)). fold (bit i' (N.to_nat m)).
  destruct (decide (N.to_nat m < n)%nat) as [Hm|Hm]; [by apply Hbits|].
  by rewrite (bit_high n i), (bit_high n i') by (done || lia).
Qed.

Lemma concentrated_ext n (ψ ψ' : Statevector) i0 :
  (∀ i, ψ i = ψ' i) → concentrated n ψ' i0 → concentrated n ψ i0.
Proof.
  intros Heq (Hin & Hne & Hz). split; [done|]. split.
  - by rewrite Heq.
  - intros i Hi Hi0. rewrite Heq. by apply Hz.
Qed.

(** A product of factors that each single out one value of their pair is
    concentrated on the basis state with those values. *)
Lemma prod_state_concentrated N F (mem : list bool) :
  length mem = (2 * N)%nat →
  (∀ j a b, (j < N)%nat →
     F j a b ≠ 0%Z ↔ a = default false (mem !! j) ∧
                     b = default false (mem !! (N + j)%nat)) →
  concentrated (2 * N) (prod_state N F) (index_of_bits mem).
Proof.
  intros Hlen HF.
  assert (index_of_bits mem < 2 ^ N.of_nat (2 * N))%N as Hlt
    by (rewrite <- Hlen; apply index_of_bits_lt).
  split; [by apply elem_of_basis|]. split.
  - unfold prod_state. rewrite (proj2 (N.ltb_lt _ _) Hlt).
    apply Zprod_nonzero. intros j [_ Hj]%elem_of_seq.
    apply HF; [lia|]. by rewrite !bit_index_of_bits.
  - intros i Hi%elem_of_basis Hne. unfold prod_state.
    rewrite (proj2 (N.ltb_lt _ _) Hi).
    destruct (Forall_Exists_dec (λ q, bit i q = bit (index_of_bits mem) q)
                (λ q, bit i q ≠ bit (index_of_bits mem) q)
                (λ q, decide (bit i q = bit (index_of_bits mem) q))
                (seq 0 (2 * N))) as [Hall|Hex].
    + exfalso. apply Hne. apply (bits_eq (2 * N)); [done..|].
      intros q Hq. rewrite Forall_forall in Hall. apply Hall, elem_of_seq. lia.
    + apply Exists_exists in Hex as (q & [_ Hq]%elem_of_seq & Hdiff).
      rewrite bit_index_of_bits in Hdiff.
      set (j := if (q <? N)%nat then q else (q - N)%nat).
      assert (j < N)%nat as Hj
        by (subst j; destruct (Nat.ltb_spec q N); lia).
      apply (Zprod_zero _ _ j); [apply elem_of_seq; lia|].
      destruct (Z.eq_dec (F j (bit i j) (bit i (N + j))) 0%Z) as [|Hnz]; [done|].
      apply HF in Hnz as [Ha Hb]; [|done]. exfalso. apply Hdiff.
      subst j. destruct (Nat.ltb_spec q N); [done|].
      by replace q with (N + (q - N))%nat at 1 2 by lia.
Qed.

Lemma Zprod_ones l : Zprod (λ _, 1%Z) l = 1%Z.
Proof. induction l as [|k l IH]; simpl; [done|]. rewrite IH. done. Qed.

Lemma index_of_bits_zeros n : index_of_bits (replicate n false) = 0%N.
Proof. induction n as [|n IH]; simpl; [done|]. rewrite IH. done. Qed.

(** The all-zero state as a product. *)
Lemma zero_state_prod N i : zero_state i = prod_state N (λ _, zero_pair) i.
Proof.
  assert (concentrated (2 * N) (prod_state N (λ _, zero_pair)) 0%N) as (H0 & _ & Hz).
  { rewrite <- (index_of_bits_zeros (2 * N)).
    apply prod_state_concentrated; [by rewrite length_replicate|].
    intros j a b Hj.
    rewrite !lookup_replicate_2 by lia. unfold zero_pair.
    destruct a, b; cbn; split; try done; by intros []. }
  unfold zero_state. destruct (N.eqb_spec i 0) as [->|Hne].
  - unfold prod_state. apply elem_of_basis in H0.
    rewrite (proj2 (N.ltb_lt _ _) H0).
    rewrite (Zprod_ext _ (λ _, 1%Z)); [by rewrite Zprod_ones|].
    intros k _. unfold bit. by rewrite !N.bits_0.
  - destruct (decide (i ∈ basis (2 * N))) as [Hi|Hi].
    + by rewrite Hz.
    + rewrite prod_state_out; [done|]. by rewrite <- elem_of_basis.
Qed.

Lemma pair_local_flat_map N (blk : nat * nat → list Instruction) :
  (∀ a, (a < N)%nat → forallb (pair_local N) (blk (a, (N + a)%nat)) = true) →
  forallb (pair_local N) (flat_map blk (carrier_pairs N)) = true.
Proof.
  intros Hblk. apply forallb_forall.
  intros instr ([a b] & [Ha ->]%list_elem_of_In%carrier_pairs_elem & Hin)%in_flat_map.
  specialize (Hblk a Ha). rewrite forallb_forall in Hblk. by apply Hblk.
Qed.

Lemma pair_local_coder_gates bits :
  forallb (pair_local (length bits / 2)) (coder_gates bits) = true.
Proof.
  unfold coder_gates, bell_stage, encode_stage, decode_gates. cbn zeta.
  rewrite !forallb_app. repeat (apply andb_true_intro; split); try done.
  - apply pair_local_flat_map. intros a Ha. cbn [forallb pair_local fst snd].
    by rewrite (proj2 (Nat.ltb_lt _ _) Ha), Nat.eqb_refl.
  - apply forallb_forall.
    intros instr ([q row] & [Hq Hrow]%list_elem_of_In%enumerate_elem & Hin)%in_flat_map.
    rewrite length_rows2 in Hq. apply rows2_pairs in Hrow as (r0 & r1 & ->).
    unfold encode_row, encoding_gates in Hin. cbn [fst snd] in Hin.
    destruct (truthy r0), (truthy r1); cbn in Hin;
      repeat (destruct Hin as [<-|Hin]; [by apply Nat.ltb_lt|]); done.
  - apply pair_local_flat_map. intros a Ha. cbn [forallb pair_local fst snd].
    by rewrite (proj2 (Nat.ltb_lt _ _) Ha), Nat.eqb_refl.
Qed.

Lemma length_expected_memory bits :
  length (expected_memory bits) = (2 * (length bits / 2))%nat.
Proof.
  unfold expected_memory. rewrite length_app, !length_fmap, length_rows2. lia.
Qed.

(** The state after the gates of [superdense_coder]: it sits on the basis
    state whose bits are the expected classical bits. *)
Lemma coder_gates_concentrated bits draw pos mem :
  concentrated (2 * (length bits / 2))
    (sv (execute_all (2 * (length bits / 2)) draw pos (coder_gates bits)
           {| sv := zero_state; memory := mem |}))
    (index_of_bits (expected_memory bits)).
Proof.
  set (N := (length bits / 2)%nat).
  eapply concentrated_ext.
  { apply (execute_all_pair_local N _ (λ _, zero_pair)).
    - apply pair_local_coder_gates.
    - intros i. apply zero_state_prod. }
  apply prod_state_concentrated; [apply length_expected_memory|].
  intros j a b Hj.
  destruct (lookup_lt_is_Some_2 (rows2 bits) j) as [row Hrow];
    [by rewrite length_rows2|].
  rewrite foldl_pair_step_at, (coder_gates_at bits j row Hrow).
  unfold expected_memory.
  rewrite lookup_app_l by (by rewrite length_fmap, length_rows2).
  rewrite lookup_app_r by (rewrite length_fmap, length_rows2; fold N; lia).
  rewrite length_fmap, length_rows2. fold N.
  replace (N + j - N)%nat with j by lia.
  rewrite !list_lookup_fmap, Hrow. cbn [fmap option_fmap option_map default].
  unfold final_pair.
  destruct a, b, (row_b1 row), (row_b0 row); cbn; split; try done; by intros [].
Qed.

Lemma coder_data_gates bits :
  coder_data bits
  = coder_gates bits
    ++ Barrier (seq 0 (2 * (length bits / 2)))
       :: ((λ q, Measure q q) <$> seq 0 (2 * (length bits / 2))).
Proof.
  unfold coder_data, coder_gates, decode_stage.
  cbn zeta. by rewrite <- !app_assoc.
Qed.

Lemma pair_local_unitary N instrs :
  forallb (pair_local N) instrs = true → forallb is_unitary instrs = true.
Proof.
  rewrite !forallb_forall. intros H instr Hin.
  specialize (H instr Hin). by destruct instr.
Qed.

Lemma readout_measures i0 n : ∀ a (mem : list bool),
  length mem = (a + n)%nat →
  readout i0 ((λ q, Measure q q) <$> seq a n) mem
  = take a mem ++ (bit i0 <$> seq a n).
Proof.
  induction n as [|n IH]; intros a mem Hlen.
  - cbn. rewrite take_ge by lia. by rewrite app_nil_r.
  - cbn [seq fmap list_fmap readout foldl].
    change (foldl ?f (<[a := bit i0 a]> mem) ?l)
      with (readout i0 l (<[a := bit i0 a]> mem)).
    rewrite IH by (rewrite length_insert; lia).
    rewrite (take_S_r _ _ (bit i0 a))
      by (apply list_lookup_insert_eq; lia).
    rewrite take_insert_ge by lia. by rewrite <- app_assoc.
Qed.

Lemma bits_of_index (l : list bool) :
  bit (index_of_bits l) <$> seq 0 (length l) = l.
Proof.
  apply list_eq_same_length with (length l);
    [done|by rewrite length_fmap, length_seq|].
  intros q x y Hq Hx Hy.
  rewrite list_lookup_fmap, lookup_seq_lt in Hx by done.
  cbn in Hx. rewrite bit_index_of_bits, Hy in Hx. by injection Hx.
Qed.

Lemma rows2_lookup {A} k : ∀ (l : list A) r0 r1,
  l !! (2 * k)%nat = Some r0 → l !! (2 * k + 1)%nat = Some r1 →
  rows2 l !! k = Some [r0; r1].
Proof.
  induction k as [|k IH]; intros [|a [|b l]] r0 r1; try done.
  - cbn. by intros [= ->] [= ->].
  - replace (2 * S k)%nat with (S (S (2 * k))) by lia.
    replace (S (S (2 * k)) + 1)%nat with (S (S (2 * k + 1))) by lia.
    cbn [rows2 lookup list_lookup]. apply IH.
Qed.

(** Reading the expected classical bits back in the order of the input. *)
Lemma canonical_expected_memory bits N :
  length bits = (2 * N)%nat →
  canonical_bitstring (bit_char <$> expected_memory bits) = Ok (bits_key bits).
Proof.
  intros Hlen.
  assert (length bits / 2 = N)%nat as HN
    by (rewrite Hlen, (Nat.mul_comm 2), Nat.div_mul; lia).
  assert (length (bit_char <$> expected_memory bits) = (2 * N)%nat) as Hlen'
    by (rewrite length_fmap, length_expected_memory, HN; lia).
  rewrite (canonical_bitstring_reindex _ N) by done. f_equal.
  apply list_eq_same_length with (2 * N)%nat;
    [by unfold bits_key; rewrite length_fmap|by rewrite length_reindex|].
  intros j x y Hj Hx Hy.
  rewrite lookup_reindex in Hx by (rewrite Hlen'; auto using canonical_index_lt).
  unfold bits_key in Hy. rewrite list_lookup_fmap in Hy.
  rewrite list_lookup_fmap in Hx. unfold expected_memory in Hx.
  assert (∃ k, (k < N)%nat ∧ (j = 2 * k ∨ j = 2 * k + 1)%nat) as (k & Hi & Hcase).
  { destruct (Nat.Even_Odd_dec j) as [[k ->]|[k ->]]; exists k; lia. }
  destruct (lookup_lt_is_Some_2 bits (2 * k)) as [r0 Hr0]; [lia|].
  destruct (lookup_lt_is_Some_2 bits (2 * k + 1)) as [r1 Hr1]; [lia|].
  pose proof (rows2_lookup k bits r0 r1 Hr0 Hr1) as Hrow.
  destruct Hcase as [-> | ->].
  - rewrite canonical_index_even in Hx.
    rewrite lookup_app_r in Hx by (rewrite length_fmap, length_rows2; lia).
    rewrite length_fmap, length_rows2, HN in Hx.
    replace (k + N - N)%nat with k in Hx by lia.
    rewrite list_lookup_fmap, Hrow in Hx. rewrite Hr0 in Hy.
    cbn in Hx, Hy. congruence.
  - rewrite canonical_index_odd in Hx.
    rewrite lookup_app_l in Hx by (rewrite length_fmap, length_rows2; lia).
    rewrite list_lookup_fmap, Hrow in Hx. rewrite Hr1 in Hy.
    cbn in Hx, Hy. congruence.
Qed.

Lemma bits_key_is_bit bs bits :
  Forall is_bit bs → comprehension int_base2 bs = Ok bits → bits_key bits = bs.
Proof.
  intros Hbits. revert bits.
  induction Hbits as [|c bs Hc _ IH]; intros bits; cbn [comprehension].
  - by intros [= <-].
  - destruct (int_base2 c) as [z|] eqn:Hz; [|done]. cbn.
    destruct (comprehension int_base2 bs) as [bits'|]; [|done]. cbn.
    intros [= <-]. unfold bits_key. cbn [fmap list_fmap]. f_equal.
    + by destruct Hc as [-> | ->]; injection Hz as <-.
    + by apply IH.
Qed.

(** The simulation of the circuit [superdense_coder] builds from a
    non-empty input: every shot is counted under the key of the input
    bits. *)
Lemma simulate_coder_circuit bits N rnd n_samples :
  length bits = (2 * N)%nat → N ≠ 0%nat →
  simulate_circuit rnd (coder_circuit bits) n_samples
  = Ok {[ bits_key bits := DEFAULT_SHOTS ]}.
Proof.
  intros Hlen HN0.
  assert (length bits / 2 = N)%nat as HN
    by (rewrite Hlen, (Nat.mul_comm 2), Nat.div_mul; lia).
  assert (num_clbits (coder_circuit bits) = (2 * N)%nat) as Hcl
    by (change (num_clbits (coder_circuit bits))
          with (2 * (length bits / 2) + 0)%nat; rewrite HN; lia).
  assert (num_qubits (coder_circuit bits) = (2 * N)%nat) as Hnq
    by (change (num_qubits (coder_circuit bits))
          with (2 * (length bits / 2))%nat; rewrite HN; lia).
  assert (data (coder_circuit bits)
          = coder_gates bits
            ++ Barrier (seq 0 (2 * N)) :: ((λ q, Measure q q) <$> seq 0 (2 * N))) as Hdata
    by (cbn [coder_circuit data]; by rewrite coder_data_gates, HN).
  apply (simulate_circuit_deterministic _ (length (coder_gates bits))
           (index_of_bits (expected_memory bits))).
  - rewrite Hdata, take_app_length.
    apply (pair_local_unitary (length bits / 2)), pair_local_coder_gates.
  - rewrite Hdata, drop_app_length. cbn [forallb is_readout].
    apply forallb_forall. intros instr (q & <- & _)%in_map_iff. done.
  - rewrite Hdata, take_app_length, Hnq, <- HN.
    apply coder_gates_concentrated.
  - lia.
  - rewrite Hdata, drop_app_length, Hcl.
    cbn [readout foldl].
    change (foldl ?f (replicate (2 * N) false) ?l)
      with (readout (index_of_bits (expected_memory bits)) l (replicate (2 * N) false)).
    rewrite (readout_measures _ (2 * N) 0) by (by rewrite length_replicate).
    rewrite take_0, app_nil_l.
    pose proof (length_expected_memory bits) as Hexp. rewrite HN in Hexp.
    rewrite <- Hexp, bits_of_index, ?Hexp.
    unfold format_memory. cbn [coder_circuit cregs fmap list_fmap reg_size
      ClassicalRegister split_registers].
    rewrite HN, take_ge by lia.
    cbn [rev app intercalate]. unfold reversed. rewrite rev_involutive.
    by apply (canonical_expected_memory bits N).
Qed.

End pairs.

(* ===================================================================== *)
(** * Properties of the notebook's functions *)
(* ===================================================================== *)

(** C5.  On a circuit object that has the qubit [q], [encode_bits] returns
    normally and appends to that circuit the X gate on [q] exactly when
    [b0] is true, followed by the Z gate on [q] exactly when [b1] is true;
    nothing else in the store changes, and for two false bits the store is
    left as it was. *)
Theorem encode_bits_gates (σ : list QuantumCircuit) (circuit : nat)
    (qc : QuantumCircuit) (q : nat) (b0 b1 : bool) :
  σ !! circuit = Some qc → (q < num_qubits qc)%nat →
  encode_bits circuit q b0 b1 σ
  = (Ok (), <[circuit := append_data
                ((if b0 then [XGate q] else []) ++ (if b1 then [ZGate q] else []))
                qc]> σ)
  ∧ encode_bits circuit q false false σ = (Ok (), σ).
Proof.
  intros Hc Hq. split.
  - by apply (appends_encode_bits (num_qubits qc)).
  - rewrite (appends_encode_bits (num_qubits qc) circuit q false false Hq σ qc Hc eq_refl).
    cbn [encoding_gates app]. by rewrite append_data_nil, list_insert_id.
Qed.

Lemma encode_bits_gates_witness :
  encode_bits 0 0 true true [bell_pair_example]
  = (Ok (), <[0%nat := append_data ([XGate 0] ++ [ZGate 0]) bell_pair_example]>
              [bell_pair_example])
  ∧ encode_bits 0 0 false false [bell_pair_example] = (Ok (), [bell_pair_example]).
Proof.
  apply (encode_bits_gates [bell_pair_example] 0 bell_pair_example 0 true true).
  - reflexivity.
  - vm_compute. lia.
Defined.

(** C6.  On a circuit object that has the two distinct qubits [q_a] and
    [q_b], [decode_bits] returns normally and appends exactly two gates, in
    this order: CX with control [q_a] and target [q_b], then H on [q_a].
    Executing them applies CX and then H to the state and touches no
    classical bit. *)
Theorem decode_bits_gates (σ : list QuantumCircuit) (circuit : nat)
    (qc : QuantumCircuit) (q_a q_b : nat) :
  σ !! circuit = Some qc →
  (q_a < num_qubits qc)%nat → (q_b < num_qubits qc)%nat → q_a ≠ q_b →
  decode_bits circuit q_a q_b σ
  = (Ok (), <[circuit := append_data [CXGate q_a q_b; HGate q_a] qc]> σ)
  ∧ ∀ n draw pos (sh : Shot),
      execute_all n draw pos [CXGate q_a q_b; HGate q_a] sh
      = {| sv := apply_h q_a (apply_cx q_a q_b (sv sh)); memory := memory sh |}.
Proof.
  intros Hc Ha Hb Hab. split.
  - by apply (appends_decode_bits (num_qubits qc)).
  - done.
Qed.

Lemma decode_bits_gates_witness :
  decode_bits 0 0 1 [bell_pair_example]
  = (Ok (), <[0%nat := append_data [CXGate 0 1; HGate 0] bell_pair_example]>
              [bell_pair_example])
  ∧ ∀ n draw pos (sh : Shot),
      execute_all n draw pos [CXGate 0 1; HGate 0] sh
      = {| sv := apply_h 0 (apply_cx 0 1 (sv sh)); memory := memory sh |}.
Proof.
  apply (decode_bits_gates [bell_pair_example] 0 bell_pair_example 0 1).
  - reflexivity.
  - vm_compute. lia.
  - vm_compute. lia.
  - lia.
Defined.

(** C7.  Encoding changes carrier A only.  Whatever [encode_bits] appends
    to a circuit acts on the single qubit [q]; executing the gates of an
    encoding on qubit [q] leaves the state of every other qubit, and the
    classical bits, as they were; and in the circuit [superdense_coder]
    returns, the stage between the Bell pairs and the decoding leaves the
    state of every qubit of register [qb] as the Bell pairs left it. *)
Theorem encode_bits_frame :
  (∀ (σ : list QuantumCircuit) circuit qc q b0 b1,
     σ !! circuit = Some qc →
     ∃ instrs, (encode_bits circuit q b0 b1 σ).2 = <[circuit := append_data instrs qc]> σ ∧
               Forall (λ i, qargs i = [q]) instrs) ∧
  (∀ n q b b0 b1 draw pos (sh : Shot) s t,
     (q < n)%nat → q ≠ b →
     reduced n b (sv (execute_all n draw pos (encoding_gates q b0 b1) sh)) s t
     = reduced n b (sv sh) s t ∧
     memory (execute_all n draw pos (encoding_gates q b0 b1) sh) = memory sh) ∧
  (∀ bs bits (σ : list QuantumCircuit),
     (length bs mod 2 = 0)%nat → comprehension int_base2 bs = Ok bits →
     let N := (length bits / 2)%nat in
     ∃ qc, superdense_coder bs σ = (Ok (length σ), σ ++ [qc]) ∧
           num_qubits qc = (2 * N)%nat ∧
           data qc = bell_stage N ++ encode_stage bits ++ decode_stage N ∧
           ∀ b draw pos (sh : Shot) s t,
             (N ≤ b)%nat →
             reduced (2 * N) b (sv (execute_all (2 * N) draw pos (encode_stage bits) sh)) s t
             = reduced (2 * N) b (sv sh) s t).
Proof.
  split; [|split].
  - intros σ circuit qc q b0 b1 Hc.
    destruct (decide (q < num_qubits qc)%nat) as [Hq|Hq].
    + exists (encoding_gates q b0 b1). split.
      * by rewrite (appends_encode_bits (num_qubits qc) circuit q b0 b1 Hq σ qc Hc).
      * unfold encoding_gates. destruct b0, b1; repeat constructor.
    + exists []. split; [|constructor].
      rewrite append_data_nil, list_insert_id by done.
      assert (valid_qargs (num_qubits qc) [q] = false) as Hv.
      { unfold valid_qargs. cbn [forallb].
        by rewrite (proj2 (Nat.ltb_ge q (num_qubits qc))) by lia. }
      unfold encode_bits, x, z.
      destruct b0, b1;
        repeat first
          [ erewrite M_bind_raise by (by apply (append_raise σ circuit qc))
          | erewrite M_bind_ok by reflexivity
          | rewrite (append_raise σ circuit qc) by done ];
        done.
  - intros. by apply reduced_encoding_gates.
  - intros bs bits σ Heven Hbits N. exists (coder_circuit bits).
    split; [by apply superdense_coder_returns|].
    split; [done|]. split; [apply coder_data_stages|].
    intros b draw pos sh s t Hb.
    by apply execute_all_acts_off, encode_stage_acts_off.
Qed.

Lemma encode_bits_frame_witness :
  (∃ instrs, (encode_bits 0 0 true true [bell_pair_example]).2
             = <[0%nat := append_data instrs bell_pair_example]> [bell_pair_example] ∧
             Forall (λ i, qargs i = [0%nat]) instrs) ∧
  (∃ qc, superdense_coder (lit "0110") [] = (Ok 0%nat, [] ++ [qc]) ∧
         num_qubits qc = 4%nat).
Proof.
  destruct encode_bits_frame as (Hgates & _ & Hcoder). split.
  - apply (Hgates _ 0%nat). reflexivity.
  - destruct (Hcoder (lit "0110") [0; 1; 1; 0]%Z []) as (qc & Hqc & Hn & _);
      [reflexivity|reflexivity|].
    exists qc. split; [exact Hqc|exact Hn].
Defined.

(** End to end: on a non-empty input of even length over ['0'] and ['1'],
    [superdense_coder] returns a circuit, and [simulate_circuit] counts every
    shot of that circuit under the input string itself. *)
Lemma superdense_coder_correct (bs : str) :
  Forall is_bit bs → Nat.Even (length bs) → bs ≠ [] →
  ∃ qc, (∀ σ, superdense_coder bs σ = (Ok (length σ), σ ++ [qc])) ∧
        ∀ rnd n_samples,
          simulate_circuit rnd qc n_samples = Ok {[ bs := DEFAULT_SHOTS ]}.
Proof.
  intros Hbits Heven Hne.
  destruct (comprehension_Ok bs) as [bits Hcomp].
  { eapply Forall_impl; [exact Hbits|]. apply is_bit_binary_digit. }
  pose proof (length_comprehension _ _ _ Hcomp) as Hlen.
  destruct Heven as [N HN].
  exists (coder_circuit bits). split.
  - intros σ. apply superdense_coder_returns; [|done].
    by apply Even_mod2; exists N.
  - intros rnd n_samples.
    rewrite (simulate_coder_circuit bits N) by (destruct bs; simpl in *; [done|lia]).
    by rewrite (bits_key_is_bit bs bits).
Qed.

(** C1.  For each of the four bit pairs, the circuit made of the Bell-state
    preparation, [encode_bits] on carrier A, [decode_bits] and the
    measurement of both carriers is built without error; the state it
    measures gives probability 1 to the basis state in which carrier A holds
    [b1] and carrier B holds [b0]; every shot, whatever its random numbers,
    reads a bitstring that [canonical_bitstring] turns into [(b0, b1)]; and
    the simulation puts every shot on that one key.  The same holds for the
    circuit [superdense_coder] builds from the two characters of the
    pair. *)
Theorem bit_pair_roundtrip (b0 b1 : bool) :
  ∃ qc, (∀ σ, bit_pair_circuit b0 b1 σ = (Ok (length σ), σ ++ [qc])) ∧
        (probability (num_qubits qc) (final_state qc) (index_of_bits [b1; b0]) == 1)%Q ∧
        (∀ draw, canonical_bitstring
                   (reversed (format_memory qc (memory (run_shot qc draw))))
                 = Ok [bit_char b0; bit_char b1]) ∧
        (∀ rnd n_samples, simulate_circuit rnd qc n_samples
                          = Ok {[ [bit_char b0; bit_char b1] := DEFAULT_SHOTS ]}) ∧
        ∃ qc', (∀ σ, superdense_coder [bit_char b0; bit_char b1] σ
                     = (Ok (length σ), σ ++ [qc'])) ∧
               ∀ rnd n_samples,
                 simulate_circuit rnd qc' n_samples
                 = Ok {[ [bit_char b0; bit_char b1] := DEFAULT_SHOTS ]}.
Proof.
  exists (pair_circuit b0 b1).
  split; [intros σ; apply bit_pair_circuit_returns|].
  set (k := (4 + (if b0 then 1 else 0) + (if b1 then 1 else 0))%nat).
  set (i0 := index_of_bits [b1; b0]).
  assert (concentrated 2
            (sv (execute_all 2 (λ _, 0%N) 0 (take k (data (pair_circuit b0 b1)))
                   {| sv := zero_state; memory := replicate 2 false |})) i0) as Hconc
    by (apply concentratedb_correct; by destruct b0, b1).
  split; [|split; [|split]].
  - apply probability_concentrated, concentratedb_correct. by destruct b0, b1.
  - intros draw. rewrite (run_shot_readout _ k i0); [|by destruct b0, b1..|done].
    by destruct b0, b1.
  - intros rnd n_samples.
    apply (simulate_circuit_deterministic _ k i0); try done; by destruct b0, b1.
  - apply superdense_coder_correct; [|by exists 1%nat|done].
    assert (∀ b, is_bit (bit_char b)) as Hb by (intros []; [by right|by left]).
    by repeat (constructor; [apply Hb|]).
Qed.

(** C8.  [superdense_coder("001101")] returns a circuit whose noiseless
    simulation by [simulate_circuit] is the mapping with the single key
    "001101", and that key carries all the shots of the run. *)
Theorem superdense_coder_001101 :
  ∃ qc, (∀ σ, superdense_coder (lit "001101") σ = (Ok (length σ), σ ++ [qc])) ∧
        ∀ rnd n_samples,
          length (run rnd (transpile qc) (Z.of_nat n_samples) None) = DEFAULT_SHOTS ∧
          simulate_circuit rnd qc n_samples = Ok {[ lit "001101" := DEFAULT_SHOTS ]}.
Proof.
  destruct (superdense_coder_correct (lit "001101")) as (qc & Hqc & Hsim);
    [by repeat constructor|by exists 3%nat|done|].
  exists qc. split; [exact Hqc|].
  intros rnd n_samples. split; [|apply Hsim].
  unfold run. by rewrite length_fmap, length_seq.
Qed.

(** C4.  [superdense_coder] raises [AssertionError] exactly on the inputs
    of odd length, and it does so with the store untouched: no circuit
    object has been built.  On every input of even length made of the
    characters ['0'] and ['1'] the check passes and the call returns a newly
    built circuit; hence on inputs made of ['0'] and ['1'] the call fails if
    and only if the length is odd. *)
Theorem superdense_coder_precondition (bs : str) (σ : list QuantumCircuit) :
  (Nat.Odd (length bs) → superdense_coder bs σ = (Raise AssertionError, σ)) ∧
  ((superdense_coder bs σ).1 = Raise AssertionError → Nat.Odd (length bs)) ∧
  (Nat.Even (length bs) → Forall is_bit bs →
     ∃ qc, superdense_coder bs σ = (Ok (length σ), σ ++ [qc])) ∧
  (Forall is_bit bs →
     ((∃ e, (superdense_coder bs σ).1 = Raise e) ↔ Nat.Odd (length bs))).
Proof.
  assert (Nat.Even (length bs) → Forall is_bit bs →
          ∃ qc, superdense_coder bs σ = (Ok (length σ), σ ++ [qc])) as Hbuild.
  { intros Heven%Even_mod2 Hbits.
    destruct (comprehension_Ok bs) as [bits Hcomp].
    { eapply Forall_impl; [exact Hbits|]. apply is_bit_binary_digit. }
    exists (coder_circuit bits). by apply superdense_coder_returns. }
  split; [|split; [|split]].
  - intros Hodd%Odd_mod2. by apply superdense_coder_odd.
  - intros Hraise. apply Odd_mod2. intros Heven.
    destruct (comprehension int_base2 bs) as [bits|e] eqn:Hcomp.
    + by rewrite (superdense_coder_returns bs bits σ Heven Hcomp) in Hraise.
    + rewrite (superdense_coder_invalid bs σ e Heven Hcomp) in Hraise.
      assert (e = ValueError) as ->; [|done].
      destruct (Forall_Exists_dec binary_digit (λ c, ¬ binary_digit c)
                  (λ c, decide (binary_digit c)) bs) as [Hall|Hex].
      * destruct (comprehension_Ok bs Hall) as [bits Hok]. congruence.
      * rewrite (comprehension_Raise bs Hex) in Hcomp. congruence.
  - exact Hbuild.
  - intros Hbits. split.
    + intros [e He]. destruct (Nat.Even_or_Odd (length bs)) as [Heven|]; [|done].
      destruct (Hbuild Heven Hbits) as [qc Hqc]. by rewrite Hqc in He.
    + intros Hodd%Odd_mod2. exists AssertionError.
      by rewrite superdense_coder_odd.
Qed.

Lemma superdense_coder_precondition_witness :
  superdense_coder (lit "001") [] = (Raise AssertionError, []) ∧
  ∃ qc, superdense_coder (lit "0011") [] = (Ok 0%nat, [] ++ [qc]).
Proof.
  split.
  - apply (superdense_coder_precondition (lit "001") []). by exists 1%nat.
  - apply (superdense_coder_precondition (lit "0011") []).
    + by exists 2%nat.
    + repeat constructor; by vm_compute; auto.
Defined.

(** C10, counterexample.  The two characters ARABIC-INDIC DIGIT ONE and
    ARABIC-INDIC DIGIT ZERO form an input of even length with characters
    other than ['0'] and ['1'], and [superdense_coder] returns a circuit for
    it: [int] reads them as 1 and 0. *)
Lemma superdense_coder_arabic_indic_digits :
  Nat.Even (length [0x661; 0x660]%N) ∧
  Exists (λ c, ¬ is_bit c) [0x661; 0x660]%N ∧
  superdense_coder [0x661; 0x660]%N [] = (Ok 0%nat, [coder_circuit [1; 0]%Z]).
Proof.
  split; [by exists 1%nat|]. split.
  - apply Exists_cons_hd. by intros [|].
  - reflexivity.
Qed.

Lemma low_characters (c : N) :
  (c < 0x660)%N → ¬ is_bit c → ¬ binary_digit c.
Proof.
  intros Hc Hbit.
  assert (bool_decide (Forall (λ c, is_bit c ∨ ¬ binary_digit c)
                         (N.of_nat <$> seq 0 1632)) = true) as Hall
    by (by vm_compute).
  apply bool_decide_eq_true in Hall. rewrite Forall_forall in Hall.
  destruct (Hall c) as [|]; [|done..].
  apply list_elem_of_fmap. exists (N.to_nat c). split; [by rewrite N2Nat.id|].
  apply elem_of_seq. lia.
Qed.

(** C10, amended.  For every input of even length that contains a character
    which is not a decimal digit of value 0 or 1, [superdense_coder] raises
    [ValueError], from the conversion by [int], with the store untouched: no
    circuit object has been built.  Every character below U+0660 other than
    ['0'] and ['1'] is such a character, so every ASCII character other than
    ['0'] and ['1'] is. *)
Theorem superdense_coder_rejects_non_digits (bs : str) (σ : list QuantumCircuit) :
  Nat.Even (length bs) →
  Exists (λ c, ¬ binary_digit c ∨ ((c < 0x660)%N ∧ ¬ is_bit c)) bs →
  superdense_coder bs σ = (Raise ValueError, σ).
Proof.
  intros Heven%Even_mod2 Hex.
  apply superdense_coder_invalid; [done|].
  apply comprehension_Raise.
  apply (Exists_impl _ _ _ Hex).
  intros c [Hc|[Hlow Hbit]]; [done|]. by apply low_characters.
Qed.

Lemma superdense_coder_rejects_non_digits_witness :
  superdense_coder (lit "0a") [] = (Raise ValueError, []).
Proof.
  apply (superdense_coder_rejects_non_digits (lit "0a") []).
  - by exists 1%nat.
  - apply Exists_cons_tl, Exists_cons_hd. right. split; [by vm_compute|].
    by intros [|].
Defined.

(** C9, the code at the default [n_samples = 1000].  [simulate_circuit]
    hands [n_samples] to [run] as the positional argument [validate]; the
    simulator runs its own 1024 shots whatever [n_samples] is.  For the
    circuit of "001101" the counts of the returned mapping sum to 1024, not
    to 1000. *)
Theorem simulate_circuit_ignores_n_samples :
  (∀ rnd (qc : QuantumCircuit) n_samples,
     length (run rnd (transpile qc) (Z.of_nat n_samples) None) = 1024%nat) ∧
  ∃ qc, superdense_coder (lit "001101") [] = (Ok 0%nat, [qc]) ∧
        ∀ rnd, ∃ counts,
          simulate_circuit rnd qc n_samples_default = Ok counts ∧
          total counts = 1024%nat ∧ total counts ≠ n_samples_default.
Proof.
  split.
  - intros rnd qc n_samples. unfold run. by rewrite length_fmap, length_seq.
  - destruct (superdense_coder_correct (lit "001101")) as (qc & Hqc & Hsim);
      [by repeat constructor|by exists 3%nat|done|].
    exists qc. split; [apply (Hqc [])|].
    intros rnd. exists {[ lit "001101" := DEFAULT_SHOTS ]}.
    split; [apply Hsim|].
    unfold total. rewrite map_fold_singleton.
    unfold DEFAULT_SHOTS, n_samples_default. lia.
Qed.

(* ===================================================================== *)
(** * Further properties: the functions that append gates *)
(* ===================================================================== *)

Section builders.

Implicit Types (σ : list QuantumCircuit) (qc : QuantumCircuit) (c : nat).

Lemma valid_qargs_1_false n q : (n ≤ q)%nat → valid_qargs n [q] = false.
Proof.
  intros Hq. unfold valid_qargs. cbn [forallb].
  by rewrite (proj2 (Nat.ltb_ge q n) Hq).
Qed.

Lemma valid_qargs_2_false n a b :
  (n ≤ a)%nat ∨ (n ≤ b)%nat ∨ a = b → valid_qargs n [a; b] = false.
Proof.
  intros H. unfold valid_qargs. apply andb_false_iff.
  destruct (decide (a = b)) as [->|Hne].
  - right. apply bool_decide_eq_false. intros [Hin _]%NoDup_cons.
    apply Hin, list_elem_of_here.
  - left. cbn [forallb]. destruct H as [H|[H|H]]; [| |done].
    + by rewrite (proj2 (Nat.ltb_ge a n) H).
    + rewrite (proj2 (Nat.ltb_ge b n) H). by destruct (a <? n)%nat.
Qed.

Lemma appended_to_refl c σ : appended_to c σ σ.
Proof.
  split; [done|]. split; [done|].
  intros qc Hc. exists []. by rewrite append_data_nil.
Qed.

Lemma appended_to_trans c σ1 σ2 σ3 :
  appended_to c σ1 σ2 → appended_to c σ2 σ3 → appended_to c σ1 σ3.
Proof.
  intros (Hlen1 & Hoth1 & Hc1) (Hlen2 & Hoth2 & Hc2).
  split; [congruence|]. split.
  - intros c' Hc'. by rewrite Hoth2, Hoth1.
  - intros qc Hqc. destruct (Hc1 qc Hqc) as [instrs1 H1].
    destruct (Hc2 _ H1) as [instrs2 H2].
    exists (instrs1 ++ instrs2). by rewrite H2, append_data_app.
Qed.

Lemma append_only_ret {A} c (a : A) : append_only c (mret a).
Proof. intros σ. apply appended_to_refl. Qed.

Lemma append_only_bind {A B} c (m : M A) (k : A → M B) :
  append_only c m → (∀ a, append_only c (k a)) → append_only c (m ≫= k).
Proof.
  intros Hm Hk σ. specialize (Hm σ).
  unfold mbind, M_mbind, M_bind. destruct (m σ) as [[a|e] σ'] eqn:Hmσ.
  - eapply appended_to_trans; [exact Hm|]. apply Hk.
  - exact Hm.
Qed.

Lemma append_only_append c (i : Instruction) : append_only c (append c i).
Proof.
  intros σ. unfold append, deref, update, mbind, M_mbind, M_bind.
  destruct (σ !! c) as [qc|] eqn:Hc; [|apply appended_to_refl].
  destruct (valid_qargs _ _); [|apply appended_to_refl].
  rewrite Hc. cbn [snd].
  split; [by rewrite length_insert|]. split.
  - intros c' Hc'. by rewrite list_lookup_insert_ne.
  - intros qc' Hqc'. exists [i].
    assert (qc' = qc) as -> by congruence.
    apply list_lookup_insert_eq. by eapply lookup_lt_Some.
Qed.

Lemma append_only_prepare_bell_state c a b : append_only c (prepare_bell_state c a b).
Proof. apply append_only_bind; intros; apply append_only_append. Qed.

Lemma append_only_encode_bits c q (b0 b1 : bool) : append_only c (encode_bits c q b0 b1).
Proof.
  apply append_only_bind; [|intros _];
    [destruct b0|destruct b1]; (apply append_only_append || apply append_only_ret).
Qed.

Lemma append_only_decode_bits c a b : append_only c (decode_bits c a b).
Proof. apply append_only_bind; intros; apply append_only_append. Qed.

End builders.

(** X1.  [prepare_bell_state] on a live circuit: with two distinct qubits
    of the circuit it appends H on [a] and then CX from [a] to [b]; when [a]
    is a qubit of the circuit but [b] is not, or is [a] itself, it raises
    [CircuitError] after the H gate has been appended, and the gate stays;
    when [a] is not a qubit of the circuit it raises [CircuitError] and the
    store is as before. *)
Theorem prepare_bell_state_outcomes (σ : list QuantumCircuit) (circuit : nat)
    (qc : QuantumCircuit) (a b : nat) :
  σ !! circuit = Some qc →
  prepare_bell_state circuit a b σ
  = if (a <? num_qubits qc)%nat
    then if (b <? num_qubits qc)%nat && negb (a =? b)%nat
         then (Ok (), <[circuit := append_data [HGate a; CXGate a b] qc]> σ)
         else (Raise CircuitError, <[circuit := append_data [HGate a] qc]> σ)
    else (Raise CircuitError, σ).
Proof.
  intros Hc. unfold prepare_bell_state, h, cx.
  destruct (Nat.ltb_spec a (num_qubits qc)) as [Ha|Ha].
  - rewrite (M_bind_ok _ _ _ _ _ (append_ok σ circuit qc (HGate a) Hc (valid_qargs_1 _ _ Ha))).
    assert (<[circuit := append_data [HGate a] qc]> σ !! circuit
            = Some (append_data [HGate a] qc)) as Hc'
      by (apply list_lookup_insert_eq; by eapply lookup_lt_Some).
    destruct (Nat.ltb_spec b (num_qubits qc)) as [Hb|Hb];
      [destruct (Nat.eqb_spec a b) as [Hab|Hab]|]; cbn [andb negb].
    + rewrite (append_raise _ _ _ (CXGate a b) Hc'); [done|].
      apply valid_qargs_2_false. auto.
    + rewrite (append_ok _ _ _ (CXGate a b) Hc') by (by apply valid_qargs_2).
      by rewrite list_insert_insert_eq, append_data_app.
    + rewrite (append_raise _ _ _ (CXGate a b) Hc'); [done|].
      apply valid_qargs_2_false. auto.
  - by rewrite (M_bind_raise _ _ _ _ _
                  (append_raise σ circuit qc (HGate a) Hc (valid_qargs_1_false _ _ Ha))).
Qed.

Lemma prepare_bell_state_outcomes_witness :
  prepare_bell_state 0 0 0 [bell_pair_example]
  = (Raise CircuitError,
     <[0%nat := append_data [HGate 0] bell_pair_example]> [bell_pair_example]).
Proof.
  exact (prepare_bell_state_outcomes [bell_pair_example] 0 bell_pair_example 0 0 eq_refl).
Defined.

(** X2.  [encode_bits] with a qubit index that is not a qubit of the live
    circuit: it raises [CircuitError] exactly when one of the two bits is
    true, and for two false bits it returns normally; in both cases the
    store is as before. *)
Theorem encode_bits_bad_qubit (σ : list QuantumCircuit) (circuit : nat)
    (qc : QuantumCircuit) (q : nat) (b0 b1 : bool) :
  σ !! circuit = Some qc → (num_qubits qc ≤ q)%nat →
  encode_bits circuit q b0 b1 σ
  = (if b0 || b1 then Raise CircuitError else Ok (), σ).
Proof.
  intros Hc Hq. unfold encode_bits, x, z.
  pose proof (append_raise σ circuit qc (XGate q) Hc (valid_qargs_1_false _ _ Hq)) as Hx.
  pose proof (append_raise σ circuit qc (ZGate q) Hc (valid_qargs_1_false _ _ Hq)) as Hz.
  destruct b0, b1; cbn [orb].
  - by rewrite (M_bind_raise _ _ _ _ _ Hx).
  - by rewrite (M_bind_raise _ _ _ _ _ Hx).
  - by erewrite M_bind_ok by reflexivity.
  - by erewrite M_bind_ok by reflexivity.
Qed.

Lemma encode_bits_bad_qubit_witness :
  encode_bits 0 7 false true [bell_pair_example] = (Raise CircuitError, [bell_pair_example])
  ∧ encode_bits 0 7 false false [bell_pair_example] = (Ok (), [bell_pair_example]).
Proof.
  split.
  - apply (encode_bits_bad_qubit [bell_pair_example] 0 bell_pair_example 7 false true).
    + reflexivity.
    + vm_compute. lia.
  - apply (encode_bits_bad_qubit [bell_pair_example] 0 bell_pair_example 7 false false).
    + reflexivity.
    + vm_compute. lia.
Defined.

(** X3.  [decode_bits] is all or nothing: on a live circuit, when [q_a] and
    [q_b] are not two distinct qubits of the circuit it raises
    [CircuitError] and the store is as before, no gate having been
    appended. *)
Theorem decode_bits_bad_qubits (σ : list QuantumCircuit) (circuit : nat)
    (qc : QuantumCircuit) (q_a q_b : nat) :
  σ !! circuit = Some qc →
  (num_qubits qc ≤ q_a)%nat ∨ (num_qubits qc ≤ q_b)%nat ∨ q_a = q_b →
  decode_bits circuit q_a q_b σ = (Raise CircuitError, σ).
Proof.
  intros Hc Hbad. unfold decode_bits, cx.
  by rewrite (M_bind_raise _ _ _ _ _
                (append_raise σ circuit qc (CXGate q_a q_b) Hc (valid_qargs_2_false _ _ _ Hbad))).
Qed.

Lemma decode_bits_bad_qubits_witness :
  decode_bits 0 1 1 [bell_pair_example] = (Raise CircuitError, [bell_pair_example]).
Proof.
  apply (decode_bits_bad_qubits [bell_pair_example] 0 bell_pair_example 1 1).
  - reflexivity.
  - right. right. reflexivity.
Defined.

(** X4.  The three functions that append gates only ever append: whatever
    their arguments and whether they return or raise, the store keeps its
    size, every circuit other than the one passed is untouched, and the
    circuit passed keeps its registers and its instructions, new
    instructions coming after them. *)
Theorem gate_functions_append_only (circuit a b q : nat) (b0 b1 : bool)
    (σ : list QuantumCircuit) :
  appended_to circuit σ (prepare_bell_state circuit a b σ).2 ∧
  appended_to circuit σ (encode_bits circuit q b0 b1 σ).2 ∧
  appended_to circuit σ (decode_bits circuit a b σ).2.
Proof.
  split; [|split].
  - apply append_only_prepare_bell_state.
  - apply append_only_encode_bits.
  - apply append_only_decode_bits.
Qed.

(* ===================================================================== *)
(** * Further properties: the Bell pair and its decoding *)
(* ===================================================================== *)

Section bell.

Implicit Types (ψ : Statevector) (i : N).

Lemma bit_zero q : bit 0 q = false.
Proof. apply N.bits_0. Qed.

Lemma Zsum_add (f g : N → Z) l :
  Zsum (λ i, (f i + g i)%Z) l = (Zsum f l + Zsum g l)%Z.
Proof. induction l as [|i l IH]; simpl; lia. Qed.

Lemma apply_h_zero_state a j :
  apply_h a zero_state j = if bool_decide (j = 0%N ∨ j = flip 0 a) then 1%Z else 0%Z.
Proof.
  unfold apply_h, zero_state.
  destruct (bit j a) eqn:Hbit.
  - assert (j ≠ 0%N) as Hj0 by (intros ->; by rewrite bit_zero in Hbit).
    rewrite (proj2 (N.eqb_neq j 0) Hj0).
    destruct (N.eqb_spec (flip j a) 0) as [Heq|Hne].
    + rewrite bool_decide_eq_true_2; [done|].
      right. by rewrite <- Heq, flip_flip.
    + rewrite bool_decide_eq_false_2; [done|].
      intros [?| ->]; [done|]. by rewrite flip_flip in Hne.
  - assert (flip j a ≠ 0%N) as Hf0.
    { intros Heq. pose proof (bit_flip_same j a) as Hb.
      by rewrite Heq, bit_zero, Hbit in Hb. }
    rewrite (proj2 (N.eqb_neq _ 0) Hf0).
    destruct (N.eqb_spec j 0) as [->|Hne].
    + rewrite bool_decide_eq_true_2; [done|by left].
    + rewrite bool_decide_eq_false_2; [done|].
      intros [?| ->]; [done|]. by rewrite bit_flip_same, bit_zero in Hbit.
Qed.

(** The amplitudes of the Bell pair on the qubits [a] and [b]. *)
Lemma bell_amplitudes a b i :
  a ≠ b →
  apply_cx a b (apply_h a zero_state) i
  = if bool_decide (i = 0%N ∨ i = both_set a b) then 1%Z else 0%Z.
Proof.
  intros Hab. unfold apply_cx. rewrite !apply_h_zero_state.
  assert (bit (both_set a b) a = true) as Hboth
    by (unfold both_set; by rewrite bit_flip_other, bit_flip_same, bit_zero).
  destruct (bit i a) eqn:Hbit.
  - rewrite (bool_decide_ext (flip i b = 0%N ∨ flip i b = flip 0 a)
               (i = 0%N ∨ i = both_set a b)); [done|]. split.
    + intros [Heq| Heq].
      * exfalso. pose proof (bit_flip_other i b a ltac:(done)) as Hb.
        by rewrite Heq, bit_zero, Hbit in Hb.
      * right. unfold both_set. by rewrite <- Heq, flip_flip.
    + intros [->| ->]; [by rewrite bit_zero in Hbit|].
      right. unfold both_set. by rewrite flip_flip.
  - rewrite (bool_decide_ext (i = 0%N ∨ i = flip 0 a)
               (i = 0%N ∨ i = both_set a b)); [done|]. split.
    + intros [->| ->]; [by left|]. by rewrite bit_flip_same, bit_zero in Hbit.
    + intros [->| ->]; [by left|]. congruence.
Qed.

Lemma both_set_nonzero a b : a ≠ b → both_set a b ≠ 0%N.
Proof.
  intros Hab Heq.
  assert (bit (both_set a b) a = true) as Hboth
    by (unfold both_set; by rewrite bit_flip_other, bit_flip_same, bit_zero).
  by rewrite Heq, bit_zero in Hboth.
Qed.

Lemma both_set_basis n a b : (a < n)%nat → (b < n)%nat → both_set a b ∈ basis n.
Proof.
  intros Ha Hb. unfold both_set. do 2 (apply flip_basis; [done|]).
  apply elem_of_basis. apply N.neq_0_lt_0, N.pow_nonzero. lia.
Qed.

(** The squared norm of the Bell pair, in the unit of its amplitudes. *)
Lemma bell_norm2 n a b :
  (a < n)%nat → (b < n)%nat → a ≠ b →
  norm2 n (apply_cx a b (apply_h a zero_state)) = 2%Z.
Proof.
  intros Ha Hb Hab. unfold norm2, weight.
  rewrite (Zsum_ext _ (λ i, ((if bool_decide (i = 0%N) then 1 else 0)
                             + (if bool_decide (i = both_set a b) then 1 else 0))%Z)).
  - rewrite Zsum_add.
    rewrite (Zsum_single _ _ 0%N), (Zsum_single _ _ (both_set a b)).
    + by rewrite !bool_decide_eq_true_2.
    + apply NoDup_basis.
    + by apply both_set_basis.
    + intros i _ Hi. by rewrite bool_decide_eq_false_2.
    + apply NoDup_basis.
    + apply elem_of_basis. apply N.neq_0_lt_0, N.pow_nonzero. lia.
    + intros i _ Hi. by rewrite bool_decide_eq_false_2.
  - intros i _. rewrite bell_amplitudes by done.
    pose proof (both_set_nonzero a b Hab) as Hnz.
    destruct (decide (i = 0%N)) as [Hi0|Hi0];
      destruct (decide (i = both_set a b)) as [Hib|Hib];
      [exfalso; congruence|..].
    + by rewrite (bool_decide_eq_true_2 (i = 0%N ∨ i = both_set a b)),
        (bool_decide_eq_true_2 (i = 0%N)),
        (bool_decide_eq_false_2 (i = both_set a b)) by tauto.
    + by rewrite (bool_decide_eq_true_2 (i = 0%N ∨ i = both_set a b)),
        (bool_decide_eq_false_2 (i = 0%N)),
        (bool_decide_eq_true_2 (i = both_set a b)) by tauto.
    + by rewrite (bool_decide_eq_false_2 (i = 0%N ∨ i = both_set a b)),
        (bool_decide_eq_false_2 (i = 0%N)),
        (bool_decide_eq_false_2 (i = both_set a b)) by tauto.
Qed.

(** H and CX undone by CX and H: twice the state, that is the same state
    in another unit. *)
Lemma decode_prepare_state a b ψ i :
  a ≠ b →
  apply_h a (apply_cx a b (apply_cx a b (apply_h a ψ))) i = (2 * ψ i)%Z.
Proof.
  intros Hab.
  assert (∀ φ j, apply_cx a b (apply_cx a b φ) j = φ j) as Hcx.
  { intros φ j. unfold apply_cx.
    destruct (bit j a) eqn:Hj; [|done].
    by rewrite bit_flip_other, Hj, flip_flip. }
  unfold apply_h at 1. rewrite !Hcx. unfold apply_h.
  rewrite bit_flip_same, flip_flip.
  destruct (bit i a); cbn [negb]; lia.
Qed.

End bell.

(** X5.  [prepare_bell_state] entangles: on a live circuit that has no
    instruction yet and two distinct qubits [a] and [b] of it, the call
    returns, and the state the circuit then prepares from the all-zero
    state has the same amplitude on the basis state with all qubits 0 and
    on the one with exactly [a] and [b] set, and amplitude 0 elsewhere;
    measuring all qubits gives each of the two with probability 1/2. *)
Theorem prepare_bell_state_entangles (σ : list QuantumCircuit) (circuit : nat)
    (qc : QuantumCircuit) (a b : nat) :
  σ !! circuit = Some qc → data qc = [] →
  (a < num_qubits qc)%nat → (b < num_qubits qc)%nat → a ≠ b →
  ∃ qc', prepare_bell_state circuit a b σ = (Ok (), <[circuit := qc']> σ) ∧
         num_qubits qc' = num_qubits qc ∧
         ∀ draw,
           (∀ i, sv (run_shot qc' draw) i
                 = if bool_decide (i = 0%N ∨ i = both_set a b) then 1%Z else 0%Z) ∧
           (probability (num_qubits qc') (sv (run_shot qc' draw)) 0 == 1 # 2)%Q ∧
           (probability (num_qubits qc') (sv (run_shot qc' draw)) (both_set a b)
            == 1 # 2)%Q.
Proof.
  intros Hc Hdata Ha Hb Hab.
  exists (append_data [HGate a; CXGate a b] qc). split; [|split].
  - by apply (appends_prepare_bell_state (num_qubits qc)).
  - apply num_qubits_append_data.
  - intros draw.
    assert (∀ i, sv (run_shot (append_data [HGate a; CXGate a b] qc) draw) i
                 = apply_cx a b (apply_h a zero_state) i) as Hsv.
    { intros i. unfold run_shot, append_data. cbn [data]. by rewrite Hdata. }
    assert (norm2 (num_qubits (append_data [HGate a; CXGate a b] qc))
              (sv (run_shot (append_data [HGate a; CXGate a b] qc) draw)) = 2%Z) as Hnorm.
    { rewrite num_qubits_append_data. unfold norm2, weight.
      erewrite Zsum_ext; [by apply (bell_norm2 (num_qubits qc) a b)|].
      intros i _. cbn beta. by rewrite Hsv. }
    split; [|split].
    + intros i. rewrite Hsv. by apply bell_amplitudes.
    + unfold probability. rewrite Hnorm, Hsv, bell_amplitudes by done.
      by rewrite bool_decide_eq_true_2 by (by left).
    + unfold probability. rewrite Hnorm, Hsv, bell_amplitudes by done.
      by rewrite bool_decide_eq_true_2 by (by right).
Qed.

Lemma prepare_bell_state_entangles_witness :
  ∃ qc', prepare_bell_state 0 0 1 [{| qregs := [QuantumRegister 1 "qa"; QuantumRegister 1 "qb"];
                                      cregs := []; data := [] |}]
         = (Ok (), <[0%nat := qc']> [{| qregs := [QuantumRegister 1 "qa"; QuantumRegister 1 "qb"];
                                        cregs := []; data := [] |}]) ∧
         num_qubits qc' = 2%nat ∧
         ∀ draw,
           (∀ i, sv (run_shot qc' draw) i
                 = if bool_decide (i = 0%N ∨ i = both_set 0 1) then 1%Z else 0%Z) ∧
           (probability (num_qubits qc') (sv (run_shot qc' draw)) 0 == 1 # 2)%Q ∧
           (probability (num_qubits qc') (sv (run_shot qc' draw)) (both_set 0 1)
            == 1 # 2)%Q.
Proof.
  apply (prepare_bell_state_entangles
           [{| qregs := [QuantumRegister 1 "qa"; QuantumRegister 1 "qb"];
               cregs := []; data := [] |}] 0
           {| qregs := [QuantumRegister 1 "qa"; QuantumRegister 1 "qb"];
              cregs := []; data := [] |} 0 1).
  - reflexivity.
  - reflexivity.
  - vm_compute. lia.
  - vm_compute. lia.
  - lia.
Defined.

(** X6.  [decode_bits] undoes [prepare_bell_state]: called one after the
    other on two distinct qubits of a live circuit, the two functions return
    and append four gates whose execution leaves every classical bit alone
    and takes every state to the same state, all amplitudes being doubled
    in the integer unit of the simulation. *)
Theorem decode_bits_undoes_prepare_bell_state (σ : list QuantumCircuit)
    (circuit : nat) (qc : QuantumCircuit) (a b : nat) :
  σ !! circuit = Some qc →
  (a < num_qubits qc)%nat → (b < num_qubits qc)%nat → a ≠ b →
  ∃ instrs,
    (prepare_bell_state circuit a b;; decode_bits circuit a b) σ
    = (Ok (), <[circuit := append_data instrs qc]> σ) ∧
    length instrs = 4%nat ∧
    ∀ n draw pos (sh : Shot),
      memory (execute_all n draw pos instrs sh) = memory sh ∧
      ∀ i, sv (execute_all n draw pos instrs sh) i = (2 * sv sh i)%Z.
Proof.
  intros Hc Ha Hb Hab.
  exists ([HGate a; CXGate a b] ++ [CXGate a b; HGate a]). split; [|split].
  - exact (appends_seq (num_qubits qc) _ _ circuit _ _
             (appends_prepare_bell_state _ _ _ _ Ha Hb Hab)
             (appends_decode_bits _ _ _ _ Ha Hb Hab) σ qc Hc eq_refl).
  - done.
  - intros n draw pos sh. split; [done|].
    intros i. cbn [app execute_all execute sv]. by apply decode_prepare_state.
Qed.

Lemma decode_bits_undoes_prepare_bell_state_witness :
  ∃ instrs,
    (prepare_bell_state 0 0 1;; decode_bits 0 0 1) [bell_pair_example]
    = (Ok (), <[0%nat := append_data instrs bell_pair_example]> [bell_pair_example]) ∧
    length instrs = 4%nat ∧
    ∀ n draw pos (sh : Shot),
      memory (execute_all n draw pos instrs sh) = memory sh ∧
      ∀ i, sv (execute_all n draw pos instrs sh) i = (2 * sv sh i)%Z.
Proof.
  apply (decode_bits_undoes_prepare_bell_state [bell_pair_example] 0 bell_pair_example 0 1).
  - reflexivity.
  - vm_compute. lia.
  - vm_compute. lia.
  - lia.
Defined.

(** X15.  Encoding the same bit pair twice: on a live circuit that has the
    qubit [q], two calls of [encode_bits] with the same bits return and
    append gates whose execution leaves every classical bit alone and gives
    back the state it started from, with the opposite sign of every
    amplitude when both bits are true and unchanged otherwise. *)
Theorem encode_bits_twice (σ : list QuantumCircuit) (circuit : nat)
    (qc : QuantumCircuit) (q : nat) (b0 b1 : bool) :
  σ !! circuit = Some qc → (q < num_qubits qc)%nat →
  ∃ instrs,
    (encode_bits circuit q b0 b1;; encode_bits circuit q b0 b1) σ
    = (Ok (), <[circuit := append_data instrs qc]> σ) ∧
    ∀ n draw pos (sh : Shot),
      memory (execute_all n draw pos instrs sh) = memory sh ∧
      ∀ i, sv (execute_all n draw pos instrs sh) i
           = if b0 && b1 then (- sv sh i)%Z else sv sh i.
Proof.
  intros Hc Hq.
  exists (encoding_gates q b0 b1 ++ encoding_gates q b0 b1). split.
  - exact (appends_seq (num_qubits qc) _ _ circuit _ _
             (appends_encode_bits _ _ _ b0 b1 Hq)
             (appends_encode_bits _ _ _ b0 b1 Hq) σ qc Hc eq_refl).
  - intros n draw pos sh. split; [by destruct b0, b1|].
    intros i. destruct b0, b1;
      cbn [encoding_gates app execute_all execute sv andb];
      unfold apply_x, apply_z; rewrite ?bit_flip_same, ?flip_flip;
      try done; destruct (bit i q); cbn [negb]; lia.
Qed.

Lemma encode_bits_twice_witness :
  ∃ instrs,
    (encode_bits 0 0 true true;; encode_bits 0 0 true true) [bell_pair_example]
    = (Ok (), <[0%nat := append_data instrs bell_pair_example]> [bell_pair_example]) ∧
    ∀ n draw pos (sh : Shot),
      memory (execute_all n draw pos instrs sh) = memory sh ∧
      ∀ i, sv (execute_all n draw pos instrs sh) i
           = if true && true then (- sv sh i)%Z else sv sh i.
Proof.
  apply (encode_bits_twice [bell_pair_example] 0 bell_pair_example 0 true true).
  - reflexivity.
  - vm_compute. lia.
Defined.

(* ===================================================================== *)
(** * Further properties: [canonical_bitstring] on any string *)
(* ===================================================================== *)

Section canonical_any.

Lemma half_twice n : (2 * (n / 2) ≤ n)%nat.
Proof. pose proof (Nat.div_mod_eq n 2). lia. Qed.

Lemma half_of_twice n : (2 * n / 2 = n)%nat.
Proof. by rewrite (Nat.mul_comm 2), Nat.div_mul. Qed.

Lemma canonical_bitstring_take (bs : str) :
  canonical_bitstring bs = canonical_bitstring (take (2 * (length bs / 2)) bs).
Proof.
  pose proof (half_twice (length bs)) as Hle.
  unfold canonical_bitstring.
  rewrite length_take, Nat.min_l, half_of_twice by done.
  set (N := (length bs / 2)%nat) in *.
  rewrite (canonical_loop bs N N 0 []) by lia.
  rewrite (canonical_loop (take (2 * N) bs) N N 0 [])
    by (rewrite ?length_take; lia).
  do 3 f_equal. rewrite !flat_map_concat_map. f_equal.
  apply map_ext_in. intros i [_ Hi]%in_seq.
  by rewrite !lookup_total_take_lt by lia.
Qed.

Lemma fmap_lookup_total_seq (s : str) : (λ j, s !!! j) <$> seq 0 (length s) = s.
Proof.
  apply list_eq_same_length with (length s);
    [done|by rewrite length_fmap, length_seq|].
  intros j x y Hj Hx Hy.
  rewrite list_lookup_fmap, lookup_seq_lt in Hx by done. cbn in Hx.
  rewrite (list_lookup_lookup_total_lt s j Hj) in Hy. congruence.
Qed.

Lemma reindex_canonical_perm (s : str) N :
  length s = (2 * N)%nat → reindex (canonical_index N) s ≡ₚ s.
Proof.
  intros Hlen. unfold reindex.
  change ((λ j, s !!! canonical_index N j) <$> seq 0 (length s))
    with (((λ j, s !!! j) ∘ canonical_index N) <$> seq 0 (length s)).
  rewrite (list_fmap_compose (canonical_index N) (λ j, s !!! j)
             (seq 0 (length s))).
  rewrite Hlen, canonical_index_perm, <- Hlen.
  by rewrite fmap_lookup_total_seq.
Qed.

End canonical_any.

(** X7.  [canonical_bitstring] never raises: on every string it returns a
    string of twice as many characters as the input has whole pairs.  On a
    string of odd length the last character is ignored: the result is that
    of the string without it. *)
Theorem canonical_bitstring_any_length (bs : str) :
  (∃ out, canonical_bitstring bs = Ok out ∧
          length out = (2 * (length bs / 2))%nat) ∧
  ∀ c, Nat.Even (length bs) →
       canonical_bitstring (bs ++ [c]) = canonical_bitstring bs.
Proof.
  split.
  - exists (reindex (canonical_index (length bs / 2)) (take (2 * (length bs / 2)) bs)).
    pose proof (half_twice (length bs)) as Hle.
    rewrite canonical_bitstring_take.
    rewrite (canonical_bitstring_reindex _ (length bs / 2))
      by (rewrite length_take; lia).
    split; [done|]. rewrite length_reindex, length_take. lia.
  - intros c [N HN].
    rewrite (canonical_bitstring_take (bs ++ [c])).
    rewrite length_app. cbn [length].
    replace ((length bs + 1) / 2)%nat with N.
    + rewrite take_app_le by lia. rewrite take_ge by lia. done.
    + rewrite HN. apply (Nat.div_unique _ 2 N 1); lia.
Qed.

(** X8.  [canonical_bitstring] only moves characters: on a string of even
    length the result is a rearrangement of the input, so that every
    character occurs in the result as often as in the input. *)
Theorem canonical_bitstring_rearranges (bs : str) :
  Nat.Even (length bs) →
  ∃ out, canonical_bitstring bs = Ok out ∧ out ≡ₚ bs.
Proof.
  intros [N HN]. exists (reindex (canonical_index N) bs).
  split; [by apply canonical_bitstring_reindex|by apply reindex_canonical_perm].
Qed.

Lemma canonical_bitstring_rearranges_witness :
  ∃ out, canonical_bitstring (lit "0111") = Ok out ∧ out ≡ₚ lit "0111".
Proof.
  apply (canonical_bitstring_rearranges (lit "0111")). by exists 2%nat.
Defined.

(* ===================================================================== *)
(** * Further properties: [superdense_coder] on any input *)
(* ===================================================================== *)

Section coder_any.

Lemma ascii_digit_is_bit c : is_bit c → ascii_digit c = c.
Proof. by intros [->| ->]. Qed.

Lemma fmap_ascii_digit_is_bit (bs : str) :
  Forall is_bit bs → ascii_digit <$> bs = bs.
Proof.
  induction 1 as [|c bs Hc _ IH]; [done|].
  cbn [fmap list_fmap]. rewrite (ascii_digit_is_bit c Hc). f_equal. apply IH.
Qed.

Lemma int_base2_ascii_digit c z :
  int_base2 c = Ok z → bit_char (truthy z) = ascii_digit c.
Proof.
  unfold int_base2, ascii_digit.
  destruct (decimal c) as [[|[p|p|]]|]; try done; by intros [= <-].
Qed.

Lemma int_base2_ones c z :
  int_base2 c = Ok z → truthy z = bool_decide (decimal c = Some 1%N).
Proof.
  unfold int_base2.
  destruct (decimal c) as [[|[p|p|]]|]; try done; by intros [= <-].
Qed.

Lemma bits_key_ascii_digit bs : ∀ bits,
  comprehension int_base2 bs = Ok bits → bits_key bits = ascii_digit <$> bs.
Proof.
  induction bs as [|c bs IH]; intros bits; cbn [comprehension].
  - by intros [= <-].
  - destruct (int_base2 c) as [z|] eqn:Hz; [|done]. cbn.
    destruct (comprehension int_base2 bs) as [bits'|]; [|done]. cbn.
    intros [= <-]. unfold bits_key. cbn [fmap list_fmap]. f_equal.
    + by apply int_base2_ascii_digit.
    + by apply IH.
Qed.

Lemma true_bits_ones bs : ∀ bits,
  comprehension int_base2 bs = Ok bits → true_bits bits = ones bs.
Proof.
  induction bs as [|c bs IH]; intros bits; cbn [comprehension].
  - by intros [= <-].
  - destruct (int_base2 c) as [z|] eqn:Hz; [|done]. cbn -[ones true_bits].
    destruct (comprehension int_base2 bs) as [bits'|]; [|done]. cbn -[ones true_bits].
    intros [= <-]. unfold true_bits, ones in *.
    cbn [fmap list_fmap sum_list sum_list_with].
    rewrite (int_base2_ones c z Hz), filter_cons.
    specialize (IH bits' eq_refl). cbn [fmap] in IH.
    case_bool_decide; destruct (decide _); try done; cbn [length]; unfold id;
      change (1 + ?n)%nat with (S n); by f_equal.
Qed.

Lemma length_encoding_gates q (b0 b1 : bool) :
  length (encoding_gates q b0 b1)
  = ((if b0 then 1 else 0) + (if b1 then 1 else 0))%nat.
Proof. by destruct b0, b1. Qed.

Lemma length_encode_rows n : ∀ (bits : list Z) a,
  length bits = (2 * n)%nat →
  length (flat_map encode_row (zip (seq a (length (rows2 bits))) (rows2 bits)))
  = true_bits bits.
Proof.
  induction n as [|n IH]; intros bits a Hlen.
  - by destruct bits.
  - destruct bits as [|r0 [|r1 bits]]; [done|simpl in Hlen; lia|].
    cbn [rows2 length seq zip zip_with flat_map].
    rewrite length_app, (IH bits (S a)) by (simpl in Hlen; lia).
    unfold encode_row at 1. cbn [snd fst].
    rewrite length_encoding_gates.
    unfold true_bits. cbn [fmap list_fmap sum_list sum_list_with]. unfold id. lia.
Qed.

Lemma length_flat_map_pairs {A} (f : A → list Instruction) l :
  (∀ a, length (f a) = 2%nat) → length (flat_map f l) = (2 * length l)%nat.
Proof.
  intros Hf. induction l as [|a l IH]; [done|].
  cbn [flat_map length]. rewrite length_app, Hf, IH. lia.
Qed.

Lemma length_carrier_pairs N : length (carrier_pairs N) = N.
Proof. unfold carrier_pairs. rewrite length_zip, !length_seq. lia. Qed.

Lemma length_coder_gates bits N :
  length bits = (2 * N)%nat →
  length (coder_gates bits) = (4 * N + 2 + true_bits bits)%nat.
Proof.
  intros Hlen. unfold coder_gates, bell_stage, encode_stage, decode_gates.
  cbn zeta. rewrite Hlen, half_of_twice.
  rewrite !length_app, !length_flat_map_pairs, length_carrier_pairs by done.
  unfold enumerate. rewrite (length_encode_rows N) by done.
  cbn [length].
  rewrite (length_flat_map_pairs (λ p : nat * nat, [CXGate p.1 p.2; HGate p.1]))
    by done.
  rewrite length_carrier_pairs. lia.
Qed.

Lemma is_unitary_coder_gates bits :
  forallb is_unitary (coder_gates bits) = true.
Proof.
  apply (pair_local_unitary (length bits / 2)), pair_local_coder_gates.
Qed.

End coder_any.

(** X9.  The outcomes of [superdense_coder] on a non-empty input, all of
    them: it returns exactly when the length is even and every character is
    a decimal digit of value 0 or 1; when it returns, the reference is a new
    one and the store is the old store with one circuit added at the end;
    when it raises, the store is as before, and the exception is
    [AssertionError] for an odd length, whatever the characters, and
    [ValueError] for an even length. *)
Theorem superdense_coder_outcomes (bs : str) (σ : list QuantumCircuit) :
  bs ≠ [] →
  ((∃ c σ', superdense_coder bs σ = (Ok c, σ'))
   ↔ Nat.Even (length bs) ∧ Forall binary_digit bs) ∧
  (∀ c σ', superdense_coder bs σ = (Ok c, σ') →
           c = length σ ∧ ∃ qc, σ' = σ ++ [qc]) ∧
  (∀ e σ', superdense_coder bs σ = (Raise e, σ') →
           σ' = σ ∧
           e = if Nat.even (length bs) then ValueError else AssertionError).
Proof.
  intros _.
  destruct (Nat.Even_or_Odd (length bs)) as [Heven|Hodd].
  - assert (Nat.even (length bs) = true) as Hev by (by apply Nat.even_spec).
    destruct (Forall_Exists_dec binary_digit (λ c, ¬ binary_digit c)
                (λ c, decide (binary_digit c)) bs) as [Hall|Hex].
    + destruct (comprehension_Ok bs Hall) as [bits Hcomp].
      pose proof (superdense_coder_returns bs bits σ
                    (proj1 (Even_mod2 _) Heven) Hcomp) as Hret.
      rewrite Hret. split; [|split].
      * split; [done|]. intros _. by eauto.
      * intros c σ' [= <- <-]. by eauto.
      * intros e σ' [=].
    + pose proof (superdense_coder_invalid bs σ ValueError
                    (proj1 (Even_mod2 _) Heven) (comprehension_Raise bs Hex)) as Hret.
      rewrite Hret, Hev. split; [|split].
      * split; [by intros (c & σ' & [=])|].
        intros [_ Hall]. exfalso.
        apply Exists_exists in Hex as (c & Hin & Hc).
        apply Hc. rewrite Forall_forall in Hall. by apply Hall.
      * intros c σ' [=].
      * by intros e σ' [= <- <-].
  - assert (Nat.even (length bs) = false) as Hev.
    { destruct (Nat.even (length bs)) eqn:He; [|done].
      apply Nat.even_spec in He. by destruct (Nat.Even_Odd_False _ He Hodd). }
    rewrite (superdense_coder_odd bs σ (proj1 (Odd_mod2 _) Hodd)), Hev.
    split; [|split].
    + split; [by intros (c & σ' & [=])|].
      intros [Heven _]. by destruct (Nat.Even_Odd_False _ Heven Hodd).
    + intros c σ' [=].
    + by intros e σ' [= <- <-].
Qed.

Lemma superdense_coder_outcomes_witness :
  ((∃ c σ', superdense_coder (lit "0a1") [] = (Ok c, σ'))
   ↔ Nat.Even (length (lit "0a1")) ∧ Forall binary_digit (lit "0a1")) ∧
  (∀ c σ', superdense_coder (lit "0a1") [] = (Ok c, σ') →
           c = length (@nil QuantumCircuit) ∧ ∃ qc, σ' = [] ++ [qc]) ∧
  (∀ e σ', superdense_coder (lit "0a1") [] = (Raise e, σ') →
           σ' = [] ∧
           e = if Nat.even (length (lit "0a1")) then ValueError else AssertionError).
Proof.
  apply (superdense_coder_outcomes (lit "0a1") []). done.
Defined.

(** X10.  The size of the circuit [superdense_coder] builds from a
    non-empty accepted input: two quantum registers of half the length of
    the input each, one classical register of the length of the input, and
    instructions that end with a barrier and the measurement of every qubit
    into the classical bit of the same position; before them come
    [2 * length + 2] instructions plus one for every digit of value 1 in
    the input, none of them a measurement, each of them a barrier, a
    one-qubit gate on a qubit of register [qa] or a CX from a qubit of [qa]
    to the qubit of the same rank of [qb]. *)
Theorem superdense_coder_circuit_size (bs : str) :
  bs ≠ [] → Nat.Even (length bs) → Forall binary_digit bs →
  ∃ qc gates,
    (∀ σ, superdense_coder bs σ = (Ok (length σ), σ ++ [qc])) ∧
    qregs qc = [QuantumRegister (length bs / 2) "qa";
                QuantumRegister (length bs / 2) "qb"] ∧
    cregs qc = [ClassicalRegister (length bs) "meas"] ∧
    num_qubits qc = length bs ∧ num_clbits qc = length bs ∧
    data qc = gates ++ Barrier (seq 0 (length bs))
                       :: ((λ q, Measure q q) <$> seq 0 (length bs)) ∧
    length gates = (2 * length bs + 2 + ones bs)%nat ∧
    forallb is_unitary gates = true ∧
    forallb (pair_local (length bs / 2)) gates = true.
Proof.
  intros _ [N HN] Hall.
  destruct (comprehension_Ok bs Hall) as [bits Hcomp].
  pose proof (length_comprehension _ _ _ Hcomp) as Hlen.
  assert (length bits / 2 = N)%nat as Hhalf by (rewrite Hlen, HN; apply half_of_twice).
  exists (coder_circuit bits), (coder_gates bits).
  split; [|split; [|split; [|split; [|split; [|split; [|split; [|split]]]]]]].
  - intros σ. apply superdense_coder_returns; [|done].
    by apply Even_mod2; exists N.
  - cbn [coder_circuit qregs]. by rewrite Hhalf, HN, half_of_twice.
  - cbn [coder_circuit cregs]. by rewrite Hhalf, HN.
  - change (num_qubits (coder_circuit bits)) with (2 * (length bits / 2))%nat.
    by rewrite Hhalf, HN.
  - change (num_clbits (coder_circuit bits)) with (2 * (length bits / 2) + 0)%nat.
    rewrite Hhalf, HN. lia.
  - cbn [coder_circuit data]. by rewrite coder_data_gates, Hhalf, HN.
  - rewrite (length_coder_gates bits N) by (by rewrite Hlen).
    rewrite (true_bits_ones bs bits Hcomp), HN. lia.
  - apply is_unitary_coder_gates.
  - rewrite <- Hlen. apply pair_local_coder_gates.
Qed.

Lemma superdense_coder_circuit_size_witness :
  ∃ qc gates,
    (∀ σ, superdense_coder (lit "10") σ = (Ok (length σ), σ ++ [qc])) ∧
    qregs qc = [QuantumRegister (2 / 2) "qa"; QuantumRegister (2 / 2) "qb"] ∧
    cregs qc = [ClassicalRegister 2 "meas"] ∧
    num_qubits qc = 2%nat ∧ num_clbits qc = 2%nat ∧
    data qc = gates ++ Barrier (seq 0 2) :: ((λ q, Measure q q) <$> seq 0 2) ∧
    length gates = (2 * 2 + 2 + ones (lit "10"))%nat ∧
    forallb is_unitary gates = true ∧
    forallb (pair_local (2 / 2)) gates = true.
Proof.
  apply (superdense_coder_circuit_size (lit "10")).
  - done.
  - by exists 1%nat.
  - repeat constructor; by vm_compute; auto.
Defined.

(** X11.  End to end, for every message: on every non-empty input of even
    length whose characters are decimal digits of value 0 or 1,
    [superdense_coder] returns a circuit, the same whatever the store, and
    [simulate_circuit] counts every shot of that circuit, whatever the
    random numbers of the shots, under one key: the input with every digit
    written as the ASCII digit of its value.  On an input of the characters
    ['0'] and ['1'] that key is the input itself. *)
Theorem superdense_coder_roundtrip (bs : str) :
  bs ≠ [] → Nat.Even (length bs) → Forall binary_digit bs →
  ∃ qc, (∀ σ, superdense_coder bs σ = (Ok (length σ), σ ++ [qc])) ∧
        (∀ rnd n_samples,
           simulate_circuit rnd qc n_samples
           = Ok {[ ascii_digit <$> bs := DEFAULT_SHOTS ]}) ∧
        (Forall is_bit bs → ascii_digit <$> bs = bs).
Proof.
  intros Hne [N HN] Hall.
  destruct (comprehension_Ok bs Hall) as [bits Hcomp].
  pose proof (length_comprehension _ _ _ Hcomp) as Hlen.
  exists (coder_circuit bits). split; [|split].
  - intros σ. apply superdense_coder_returns; [|done].
    by apply Even_mod2; exists N.
  - intros rnd n_samples.
    rewrite (simulate_coder_circuit bits N) by (destruct bs; simpl in *; [done|lia]).
    by rewrite (bits_key_ascii_digit bs bits).
  - apply fmap_ascii_digit_is_bit.
Qed.

Lemma superdense_coder_roundtrip_witness :
  ∃ qc, (∀ σ, superdense_coder [0x661; 0x30; 0x31; 0x660]%N σ
              = (Ok (length σ), σ ++ [qc])) ∧
        (∀ rnd n_samples,
           simulate_circuit rnd qc n_samples = Ok {[ lit "1010" := DEFAULT_SHOTS ]}) ∧
        (Forall is_bit [0x661; 0x30; 0x31; 0x660]%N →
         ascii_digit <$> [0x661; 0x30; 0x31; 0x660]%N = [0x661; 0x30; 0x31; 0x660]%N).
Proof.
  apply (superdense_coder_roundtrip [0x661; 0x30; 0x31; 0x660]%N).
  - done.
  - by exists 2%nat.
  - repeat constructor; by vm_compute; auto.
Defined.

(* ===================================================================== *)
(** * Further properties: the counts of [simulate_circuit] *)
(* ===================================================================== *)

Section counts.

Implicit Types (m d : gmap (list N) nat) (qc : QuantumCircuit).

Lemma canonical_bitstring_out (s : str) : canonical_bitstring s = Ok (canonical_out s).
Proof.
  pose proof (half_twice (length s)) as Hle.
  rewrite canonical_bitstring_take.
  by rewrite (canonical_bitstring_reindex _ (length s / 2))
    by (rewrite length_take; lia).
Qed.


Lemma canonical_out_inj (s1 s2 : str) n :
  length s1 = (2 * n)%nat → length s2 = (2 * n)%nat →
  canonical_out s1 = canonical_out s2 → s1 = s2.
Proof.
  intros H1 H2. unfold canonical_out.
  rewrite H1, H2, half_of_twice, !take_ge by lia.
  intros Heq. apply (f_equal (reindex (inverse_index n))) in Heq.
  by rewrite !reindex_inverse_canonical in Heq.
Qed.

(** ** Totals of mappings *)

Lemma total_insert_None m k v :
  m !! k = None → total (<[k := v]> m) = (v + total m)%nat.
Proof.
  intros Hk. unfold total.
  rewrite map_fold_insert_L; [done| |done]. intros. lia.
Qed.

Lemma total_delete m k v :
  m !! k = Some v → total m = (v + total (delete k m))%nat.
Proof.
  intros Hk. unfold total.
  rewrite (map_fold_delete_L _ _ k v m); [done| |done]. intros. lia.
Qed.

Lemma total_insert_Some m k v w :
  m !! k = Some w → (total (<[k := v]> m) + w = v + total m)%nat.
Proof.
  intros Hk. rewrite <- insert_delete_eq.
  rewrite total_insert_None by apply lookup_delete_eq.
  rewrite (total_delete m k w Hk). lia.
Qed.

Lemma total_insert_le m k v : (total (<[k := v]> m) ≤ v + total m)%nat.
Proof.
  destruct (m !! k) as [w|] eqn:Hk.
  - pose proof (total_insert_Some m k v w Hk). lia.
  - rewrite total_insert_None by done. lia.
Qed.

Lemma total_count m (k : list N) : total (count m k) = S (total m).
Proof.
  unfold count. destruct (m !! k) as [w|] eqn:Hk; cbn [default from_option id].
  - pose proof (total_insert_Some m k (S w) w Hk). lia.
  - by rewrite total_insert_None.
Qed.

Lemma total_foldl_count (keys : list (list N)) : ∀ m,
  total (foldl count m keys) = (length keys + total m)%nat.
Proof.
  induction keys as [|k keys IH]; intros m; cbn [foldl length]; [done|].
  rewrite IH, total_count. lia.
Qed.


Lemma sum_counts_map_to_list m : sum_counts (map_to_list m) = total m.
Proof.
  unfold total, sum_counts. rewrite map_fold_foldr.
  induction (map_to_list m) as [|[k v] l IH]; [done|].
  cbn [fmap list_fmap foldr uncurry sum_list_with snd]. by rewrite IH.
Qed.

(** ** The dictionary comprehension *)

Lemma for_acc_relabel (items : list (list N * nat)) : ∀ d,
  for_acc (λ d '(bs, count),
             key ← canonical_bitstring (reversed bs);
             Ok (<[key := count]> d)) items d
  = Ok (foldl relabel d items).
Proof.
  induction items as [|[bs v] items IH]; intros d; cbn [for_acc foldl]; [done|].
  rewrite canonical_bitstring_out. cbn. by rewrite IH.
Qed.

Lemma total_foldl_relabel_le (items : list (list N * nat)) : ∀ d,
  (total (foldl relabel d items) ≤ total d + sum_counts items)%nat.
Proof.
  induction items as [|[bs v] items IH]; intros d; cbn [foldl].
  - unfold sum_counts. cbn. lia.
  - etrans; [apply IH|]. unfold relabel. cbn [fst snd].
    pose proof (total_insert_le d (canonical_out (reversed bs)) v).
    unfold sum_counts. cbn [fmap list_fmap sum_list_with snd]. unfold id. lia.
Qed.



(** ** The keys of the simulator *)

Lemma length_memory_execute n u (i : Instruction) (s : Shot) :
  length (memory (execute n u i s)) = length (memory s).
Proof. destruct i; cbn [execute memory]; try done. by rewrite length_insert. Qed.

Lemma length_memory_execute_all n draw instrs : ∀ pos (s : Shot),
  length (memory (execute_all n draw pos instrs s)) = length (memory s).
Proof.
  induction instrs as [|i instrs IH]; intros pos s; cbn [execute_all]; [done|].
  by rewrite IH, length_memory_execute.
Qed.

Lemma length_memory_run_shot qc draw :
  length (memory (run_shot qc draw)) = num_clbits qc.
Proof.
  unfold run_shot. rewrite length_memory_execute_all. cbn [memory].
  apply length_replicate.
Qed.

Lemma length_intercalate (sep : str) (parts : list str) :
  length (intercalate sep parts)
  = (sum_list (length <$> parts) + length sep * (length parts - 1))%nat.
Proof.
  induction parts as [|p [|p' parts] IH].
  - cbn. lia.
  - cbn. unfold id. lia.
  - change (intercalate sep (p :: p' :: parts))
      with (p ++ sep ++ intercalate sep (p' :: parts)).
    rewrite !length_app, IH.
    cbn [fmap list_fmap sum_list_with length]. unfold id. lia.
Qed.

Lemma split_registers_sizes (sizes : list nat) : ∀ (mem : list bool),
  (sum_list sizes ≤ length mem)%nat →
  length <$> split_registers sizes mem = sizes.
Proof.
  induction sizes as [|k sizes IH]; intros mem Hlen; cbn [split_registers]; [done|].
  change (k + sum_list sizes ≤ length mem)%nat in Hlen.
  cbn [fmap list_fmap]. rewrite length_take, Nat.min_l by lia.
  f_equal. apply IH. rewrite length_drop. lia.
Qed.

Lemma length_format_memory qc (mem : list bool) :
  length mem = num_clbits qc →
  length (format_memory qc mem) = key_length qc.
Proof.
  intros Hlen. unfold format_memory, key_length.
  rewrite length_intercalate, !length_rev, !length_fmap.
  assert (∀ l : list str, sum_list (length <$> rev l) = sum_list (length <$> l)) as Hrev.
  { intros l. by rewrite <- (Permutation_rev l). }
  rewrite Hrev, <- list_fmap_compose.
  assert (length (split_registers (reg_size <$> cregs qc) mem) = length (cregs qc))
    as Hparts.
  { rewrite <- (length_fmap length), split_registers_sizes, length_fmap; [done|].
    unfold num_clbits in Hlen. lia. }
  rewrite Hparts.
  rewrite (list_fmap_ext (length ∘ (λ bits : list bool, rev (bit_char <$> bits)))
             length (split_registers (reg_size <$> cregs qc) mem))
    by (intros ? bits _; cbn; by rewrite length_rev, length_fmap).
  rewrite split_registers_sizes by (unfold num_clbits in Hlen; lia).
  unfold num_clbits. cbn [length]. lia.
Qed.


End counts.



(* ===================================================================== *)
(** * Further properties: what [simulate_circuit] counts *)
(* ===================================================================== *)

Section histogram.

Implicit Types (m d : gmap (list N) nat) (qc : QuantumCircuit).

Lemma occurrences_cons {A} `{EqDecision A} (a b : A) l :
  occurrences a (b :: l) = ((if decide (b = a) then 1 else 0) + occurrences a l)%nat.
Proof. unfold occurrences. rewrite filter_cons. by destruct (decide (b = a)). Qed.

Lemma occurrences_pos {A} `{EqDecision A} (a : A) l :
  a ∈ l ↔ (0 < occurrences a l)%nat.
Proof.
  induction l as [|b l IH].
  - split; [by intros ?%elem_of_nil|]. unfold occurrences. cbn. lia.
  - rewrite occurrences_cons, elem_of_cons. destruct (decide (b = a)) as [->|Hne].
    + split; [lia|by left].
    + rewrite IH. split; [intros [?|?]; [congruence|lia]|]. intros. right. lia.
Qed.


Lemma lookup_foldl_count (keys : list (list N)) : ∀ m k,
  default 0%nat (foldl count m keys !! k)
  = (occurrences k keys + default 0%nat (m !! k))%nat.
Proof.
  induction keys as [|k' keys IH]; intros m k; cbn [foldl]; [done|].
  rewrite IH, occurrences_cons. unfold count.
  destruct (decide (k' = k)) as [->|Hne].
  - rewrite lookup_insert_eq. cbn [default from_option id]. lia.
  - by rewrite lookup_insert_ne.
Qed.

Lemma foldl_count_pos (keys : list (list N)) : ∀ m,
  (∀ k v, m !! k = Some v → (0 < v)%nat) →
  ∀ k v, foldl count m keys !! k = Some v → (0 < v)%nat.
Proof.
  induction keys as [|k' keys IH]; intros m Hm; cbn [foldl]; [done|].
  apply IH. intros k v. unfold count.
  destruct (decide (k' = k)) as [->|Hne].
  - rewrite lookup_insert_eq. intros [= <-]. lia.
  - rewrite lookup_insert_ne by done. apply Hm.
Qed.

(** The counts of the simulator are the histogram of its keys. *)
Lemma lookup_foldl_count_empty (keys : list (list N)) k :
  foldl count ∅ keys !! k
  = if (occurrences k keys =? 0)%nat then None else Some (occurrences k keys).
Proof.
  pose proof (lookup_foldl_count keys ∅ k) as Hc.
  pose proof (foldl_count_pos keys ∅) as Hpos.
  rewrite lookup_empty in Hc. cbn [default from_option id] in Hc.
  destruct (foldl count ∅ keys !! k) as [v|] eqn:Hk; cbn [default from_option id] in Hc.
  - assert (0 < v)%nat as Hv.
    { apply (Hpos (λ k' v' H', False_ind _ (lookup_empty_Some k' v' H')) k v Hk). }
    rewrite (proj2 (Nat.eqb_neq _ _)) by lia. f_equal. lia.
  - rewrite (proj2 (Nat.eqb_eq _ _)) by lia. done.
Qed.



Lemma total_foldl_relabel_overwritten (items : list (list N * nat)) : ∀ d k w,
  d !! k = Some w → (0 < w)%nat →
  (∃ item, item ∈ items ∧ canonical_out (reversed item.1) = k) →
  (total (foldl relabel d items) < total d + sum_counts items)%nat.
Proof.
  induction items as [|[bs v] items IH]; intros d k w Hk Hw (item & Hin & Hitem).
  - by apply elem_of_nil in Hin.
  - cbn [foldl].
    assert (sum_counts ((bs, v) :: items) = v + sum_counts items)%nat as ->
      by done.
    destruct (decide (canonical_out (reversed bs) = k)) as [Heq|Hne].
    + assert (relabel d (bs, v) = <[k := v]> d) as -> by (by rewrite <- Heq).
      pose proof (total_foldl_relabel_le items (<[k := v]> d)) as Hle.
      pose proof (total_insert_Some d k v w Hk) as Hins. lia.
    + apply elem_of_cons in Hin as [->|Hin]; [done|].
      assert (relabel d (bs, v) = <[canonical_out (reversed bs) := v]> d) as -> by done.
      pose proof (IH (<[canonical_out (reversed bs) := v]> d) k w) as Hlt.
      rewrite lookup_insert_ne in Hlt by done.
      specialize (Hlt Hk Hw ltac:(by exists item)).
      pose proof (total_insert_le d (canonical_out (reversed bs)) v) as Hle. lia.
Qed.

Lemma sum_counts_app l1 l2 : sum_counts (l1 ++ l2) = (sum_counts l1 + sum_counts l2)%nat.
Proof. unfold sum_counts. by rewrite fmap_app, sum_list_with_app. Qed.

Lemma total_foldl_relabel_collision (items : list (list N * nat)) x y d :
  x ∈ items → y ∈ items → x ≠ y →
  canonical_out (reversed x.1) = canonical_out (reversed y.1) →
  (0 < x.2)%nat → (0 < y.2)%nat →
  (total (foldl relabel d items) < total d + sum_counts items)%nat.
Proof.
  assert (∀ l1 (a b : list N * nat) l2, b ∈ l2 →
            canonical_out (reversed a.1) = canonical_out (reversed b.1) →
            (0 < a.2)%nat →
            (total (foldl relabel d (l1 ++ a :: l2))
             < total d + sum_counts (l1 ++ a :: l2))%nat) as Hsplit.
  { intros l1 a b l2 Hb Heq Ha.
    rewrite foldl_app. cbn [foldl].
    pose proof (total_foldl_relabel_le l1 d) as H1.
    pose proof (total_insert_le (foldl relabel d l1) (canonical_out (reversed a.1)) a.2)
      as H2.
    assert (relabel (foldl relabel d l1) a
            = <[canonical_out (reversed a.1) := a.2]> (foldl relabel d l1)) as -> by done.
    pose proof (total_foldl_relabel_overwritten l2
                  (<[canonical_out (reversed a.1) := a.2]> (foldl relabel d l1))
                  (canonical_out (reversed a.1)) a.2) as H3.
    rewrite lookup_insert_eq in H3.
    specialize (H3 eq_refl Ha ltac:(by exists b)).
    rewrite sum_counts_app.
    assert (sum_counts (a :: l2) = a.2 + sum_counts l2)%nat as -> by done.
    lia. }
  intros Hx Hy Hxy Heq Hx2 Hy2.
  apply list_elem_of_split in Hx as (l1 & l2 & ->).
  apply elem_of_app in Hy as [Hy|Hy].
  - apply list_elem_of_split in Hy as (l0 & l1' & ->).
    rewrite <- app_assoc. cbn [app].
    apply (Hsplit l0 y x (l1' ++ x :: l2)); [|done..].
    apply elem_of_app. right. apply list_elem_of_here.
  - apply elem_of_cons in Hy as [->|Hy]; [done|].
    by apply (Hsplit l1 x y l2).
Qed.


Lemma get_counts_simulator_keys rnd qc (validate : Z) :
  num_clbits qc ≠ 0%nat →
  get_counts qc (run rnd (transpile qc) validate None)
  = Ok (foldl count ∅ (simulator_key rnd qc <$> seq 0 DEFAULT_SHOTS)).
Proof.
  intros Hcl. unfold get_counts. rewrite (proj2 (Nat.eqb_neq _ _) Hcl).
  unfold run, transpile, simulator_key. by rewrite <- list_fmap_compose.
Qed.

Lemma simulate_circuit_relabel rnd qc n_samples :
  num_clbits qc ≠ 0%nat →
  simulate_circuit rnd qc n_samples
  = Ok (foldl relabel ∅
          (map_to_list (foldl count ∅ (simulator_key rnd qc <$> seq 0 DEFAULT_SHOTS)))).
Proof.
  intros Hcl. unfold simulate_circuit. cbn zeta.
  rewrite (get_counts_simulator_keys rnd qc _ Hcl).
  exact (for_acc_relabel _ ∅).
Qed.

Lemma length_simulator_key rnd qc s :
  length (simulator_key rnd qc s) = key_length qc.
Proof. apply length_format_memory, length_memory_run_shot. Qed.

Lemma rev_inj {A} (l1 l2 : list A) : rev l1 = rev l2 → l1 = l2.
Proof. intros H. by rewrite <- (rev_involutive l1), H, rev_involutive. Qed.

End histogram.



(** X14.  [simulate_circuit] can lose shots: whenever two shots of the run
    have different simulator keys that [canonical_bitstring] maps, after
    reversal, to the same string, which happens with keys of odd length
    only, the two keys end up under one key of the returned mapping with
    the count of one of them, and the counts of the mapping sum to less
    than the 1024 shots of the run. *)
Theorem simulate_circuit_merges_shots (rnd : nat → nat → N)
    (circuit : QuantumCircuit) (n_samples s1 s2 : nat) :
  num_clbits circuit ≠ 0%nat →
  (s1 < DEFAULT_SHOTS)%nat → (s2 < DEFAULT_SHOTS)%nat →
  simulator_key rnd circuit s1 ≠ simulator_key rnd circuit s2 →
  shot_key rnd circuit s1 = shot_key rnd circuit s2 →
  Nat.Odd (key_length circuit) ∧
  ∃ counts, simulate_circuit rnd circuit n_samples = Ok counts ∧
            (total counts < DEFAULT_SHOTS)%nat.
Proof.
  intros Hcl Hs1 Hs2 Hne Heq.
  unfold shot_key in Heq. rewrite !canonical_bitstring_out in Heq.
  injection Heq as Heq.
  split.
  - destruct (Nat.Even_or_Odd (key_length circuit)) as [[n Hn]|]; [|done].
    exfalso. apply Hne, rev_inj, (canonical_out_inj _ _ n); [| |done].
    + by rewrite length_rev, length_simulator_key.
    + by rewrite length_rev, length_simulator_key.
  - set (keys := simulator_key rnd circuit <$> seq 0 DEFAULT_SHOTS).
    exists (foldl relabel ∅ (map_to_list (foldl count ∅ keys))).
    split; [by apply simulate_circuit_relabel|].
    assert (∀ s, (s < DEFAULT_SHOTS)%nat →
                 (simulator_key rnd circuit s,
                  occurrences (simulator_key rnd circuit s) keys)
                 ∈ map_to_list (foldl count ∅ keys)
                 ∧ (0 < occurrences (simulator_key rnd circuit s) keys)%nat) as Hin.
    { intros s Hs.
      assert (0 < occurrences (simulator_key rnd circuit s) keys)%nat as Hpos.
      { apply occurrences_pos. apply list_elem_of_fmap. exists s.
        split; [done|]. apply elem_of_seq. lia. }
      split; [|done]. apply elem_of_map_to_list.
      rewrite lookup_foldl_count_empty.
      by rewrite (proj2 (Nat.eqb_neq _ _)) by lia. }
    destruct (Hin s1 Hs1) as [Hin1 Hpos1], (Hin s2 Hs2) as [Hin2 Hpos2].
    pose proof (total_foldl_relabel_collision (map_to_list (foldl count ∅ keys)) _ _ ∅
                  Hin1 Hin2 ltac:(congruence) Heq Hpos1 Hpos2) as Hlt.
    rewrite sum_counts_map_to_list, total_foldl_count in Hlt.
    unfold keys in Hlt at 2. rewrite length_fmap, length_seq in Hlt.
    unfold total in Hlt at 2 3. rewrite map_fold_empty in Hlt. lia.
Qed.

Lemma simulate_circuit_merges_shots_witness :
  Nat.Odd (key_length coin_example) ∧
  ∃ counts, simulate_circuit (λ s _, N.of_nat s) coin_example 1000 = Ok counts ∧
            (total counts < DEFAULT_SHOTS)%nat.
Proof.
  apply (simulate_circuit_merges_shots (λ s _, N.of_nat s) coin_example 1000 0 1).
  - vm_compute. lia.
  - vm_compute. lia.
  - vm_compute. lia.
  - by vm_compute.
  - reflexivity.
Defined.
